(** * torch/csrc/distributed/rpc/utils.h

    A shallow embedding of the RPC utilities declared in [utils.h]: the lazy
    per-call device-stream context, whose methods are defined inline in the
    header, and the wire codec, tensor densification, payload nesting and
    message dispatch, which the header only declares. *)

From stdpp Require Import gmap list strings.
From Stdlib Require Import ZArith NArith.
From Stdlib Require Strings.Byte.

(** ** c10 vocabulary used by the header *)

(** Modelled from the spec: [c10::DeviceType] is declared in
    [c10/core/DeviceType.h], not in this header.  The spec only
    distinguishes the host from accelerator kinds; the enumeration lists the
    host and a few accelerator back ends. *)
Inductive DeviceType := CPU | CUDA | HIP | XLA | XPU.

#[global] Instance DeviceType_eq_dec : EqDecision DeviceType.
Proof. solve_decision. Defined.

(** [c10::DeviceIndex] is an [int8_t]; the header only uses it as a map key
    and passes it on, so no arithmetic on it ever wraps. *)
Abbreviation DeviceIndex := Z (only parsing).

(** [c10::Device]: the pair returned by [tensor.device()]. *)
Record Device := { type : DeviceType; index : DeviceIndex }.

#[global] Instance Device_eq_dec : EqDecision Device.
Proof. solve_decision. Defined.

(** [c10::Stream]: a device together with a stream id. *)
Record Stream := { stream_device : Device; stream_id : Z }.

#[global] Instance Stream_eq_dec : EqDecision Stream.
Proof. solve_decision. Defined.

(** [Stream::device_type()]. *)
Definition device_type (s : Stream) : DeviceType := type (stream_device s).

(** [c10::Event event{device_type}]: every construction yields a new event
    object; [event_id] is its identity. *)
Record Event := { event_id : nat; event_device_type : DeviceType }.

(** Modelled from the spec: [at::ScalarType], the element type of a tensor,
    is declared in [c10/core/ScalarType.h], not in this header. *)
Inductive ScalarType := Byte | Char | Short | Int | Long | Half | Float | Double | Bool.

#[global] Instance ScalarType_eq_dec : EqDecision ScalarType.
Proof. solve_decision. Defined.

(** Modelled from the spec: [at::Tensor] is declared outside this header.
    Section 3 of the spec describes a tensor reference as a logical array
    (shape and element type), the identity of its backing storage, where in
    that storage its data starts, and a device placement. *)
Record Tensor := {
  sizes : list N;
  dtype : ScalarType;
  storage : nat;
  storage_offset : N;
  device : Device
}.

#[global] Instance Tensor_eq_dec : EqDecision Tensor.
Proof. solve_decision. Defined.

(** Exceptions raised by the functions of the header. *)
Inductive exn :=
| runtime_error (what : string)
| FormatError (offender : option N)
| UnsupportedMessageType (tag : N).

#[global] Instance exn_eq_dec : EqDecision exn.
Proof. solve_decision. Defined.

Inductive outcome (A : Type) :=
| Returned (a : A)
| Thrown (e : exn).
Arguments Returned {A} a.
Arguments Thrown {A} e.

(** ** LazyStreamContext *)

(** What the context does to the outside world: calls of the two injected
    factories (with what they answered) and of [record] and [block] of
    [c10::Event], which is defined outside this header; both are taken to
    return. *)
Inductive Call :=
| CreatorCall (dt : DeviceType) (idx : DeviceIndex) (answer : option Stream)
| ProviderCall (dt : DeviceType) (idx : DeviceIndex) (answer : option Stream)
| EventRecord (e : Event) (on : Stream)
| EventBlock (e : Event) (blocked : Stream).

(** The private member [streams_], the history of external calls and the
    number of [c10::Event] objects constructed so far. *)
Record Machine := {
  streams_ : gmap Z Stream;
  calls : list Call;
  events : nat
}.

(** The constructor (lines 103-107) stores the two factories and leaves
    [streams_] empty. *)
Definition fresh_context : Machine :=
  {| streams_ := ∅; calls := []; events := 0 |}.

(** State and exception monad: an exception leaves the state as it was when
    it was thrown (the members are not rolled back). *)
Definition M (A : Type) : Type := Machine → outcome A * Machine.

Definition ret {A} (a : A) : M A := λ m, (Returned a, m).

Definition throw {A} (e : exn) : M A := λ m, (Thrown e, m).

Definition bind {A B} (c : M A) (k : A → M B) : M B :=
  λ m, match c m with
       | (Returned a, m') => k a m'
       | (Thrown e, m') => (Thrown e, m')
       end.

Notation "'let*' x := c 'in' k" := (bind c (λ x, k))
  (at level 10, x name, c at level 100, k at level 200, only parsing).

(** [for (const auto& x : xs) body(x);] *)
Fixpoint for_each {A} (xs : list A) (body : A → M unit) : M unit :=
  match xs with
  | [] => ret tt
  | x :: rest => let* _ := body x in for_each rest body
  end.

Section LazyStreamContext.

(** [stream_factory_t]: an arbitrary [std::function].  Its answer may
    depend on everything that happened before (a stream pool hands out
    streams round-robin), so it receives the history of external calls. *)
Definition stream_factory_t : Type :=
  list Call → DeviceType → DeviceIndex → option Stream.

Variable streamCreator_ : stream_factory_t.
Variable currentStreamProvider_ : stream_factory_t.

(** The order in which a range-for visits a [std::unordered_map] is
    unspecified: any enumeration of the entries. *)
Variable iteration_order : gmap Z Stream → list (Z * Stream).

Definition find (idx : DeviceIndex) : M (option Stream) :=
  λ m, (Returned (streams_ m !! idx), m).

(** [streams_.emplace(index, stream)]: no effect on a key already there. *)
Definition emplace (idx : DeviceIndex) (s : Stream) : M unit :=
  λ m, (Returned tt,
        match streams_ m !! idx with
        | Some _ => m
        | None => {| streams_ := <[idx := s]> (streams_ m);
                     calls := calls m; events := events m |}
        end).

Definition log (c : Call) : M unit :=
  λ m, (Returned tt,
        {| streams_ := streams_ m; calls := calls m ++ [c];
           events := events m |}).

Definition call_streamCreator (dt : DeviceType) (idx : DeviceIndex)
  : M (option Stream) :=
  λ m, let answer := streamCreator_ (calls m) dt idx in
       bind (log (CreatorCall dt idx answer)) (λ _, ret answer) m.

Definition call_currentStreamProvider (dt : DeviceType) (idx : DeviceIndex)
  : M (option Stream) :=
  λ m, let answer := currentStreamProvider_ (calls m) dt idx in
       bind (log (ProviderCall dt idx answer)) (λ _, ret answer) m.

Definition new_Event (dt : DeviceType) : M Event :=
  λ m, (Returned {| event_id := events m; event_device_type := dt |},
        {| streams_ := streams_ m; calls := calls m;
           events := S (events m) |}).

Definition entries : M (list (Z * Stream)) :=
  λ m, (Returned (iteration_order (streams_ m)), m).

(** Lines 139-156. *)
Definition getStream (device_type : DeviceType) (index : DeviceIndex)
  : M (option Stream) :=
  let* iter := find index in
  match iter with
  | None =>
      let* stream := call_streamCreator device_type index in
      match stream with
      | Some s => let* _ := emplace index s in ret stream
      | None => throw (runtime_error "Only CUDA streams are supported")
      end
  | Some s => ret (Some s)
  end.

(** The first loop of [waitForCurrentStreams], lines 111-113. *)
Definition reserve_streams (tensors : list Tensor) : M unit :=
  for_each tensors
    (λ tensor,
       let* _ := getStream (type (device tensor)) (index (device tensor)) in
       ret tt).

(** The body of the second loop, lines 116-123. *)
Definition sync_entry (entry : Z * Stream) : M unit :=
  let* current_stream :=
    call_currentStreamProvider (device_type entry.2) entry.1 in
  match current_stream with
  | Some cur =>
      let* event := new_Event (device_type entry.2) in
      let* _ := log (EventRecord event cur) in
      log (EventBlock event entry.2)
  | None => ret tt
  end.

(** Lines 110-125. *)
Definition waitForCurrentStreams (tensors : list Tensor) : M unit :=
  let* _ := reserve_streams tensors in
  let* es := entries in
  for_each es sync_entry.

(** Lines 128-135. *)
Definition getReservedStreams : M (list Stream) :=
  let* es := entries in ret (es.*2).

(** Lines 158-164; a [std::set] of the keys. *)
Definition devices : M (gset Z) :=
  λ m, (Returned (dom (streams_ m)), m).

End LazyStreamContext.

(** Every way a caller can use a context. *)
Inductive Op :=
| OpGetStream (dt : DeviceType) (idx : DeviceIndex)
| OpWaitForCurrentStreams (tensors : list Tensor)
| OpGetReservedStreams
| OpDevices.

Section ContextRuns.

Variable streamCreator_ : stream_factory_t.
Variable currentStreamProvider_ : stream_factory_t.
Variable iteration_order : gmap Z Stream → list (Z * Stream).

(** The state a call leaves behind, whether it returned or threw. *)
Definition exec (o : Op) (m : Machine) : Machine :=
  match o with
  | OpGetStream dt idx => (getStream streamCreator_ dt idx m).2
  | OpWaitForCurrentStreams tensors =>
      (waitForCurrentStreams streamCreator_ currentStreamProvider_
         iteration_order tensors m).2
  | OpGetReservedStreams => (getReservedStreams iteration_order m).2
  | OpDevices => (devices m).2
  end.

Definition run (ops : list Op) (m : Machine) : Machine :=
  foldl (λ m o, exec o m) m ops.

End ContextRuns.

Section Growth.

Variable streamCreator_ : stream_factory_t.

(** How [streams_] can change: only by adding, under a key that was free,
    a stream the creator handed out. *)
Inductive grows : gmap Z Stream → gmap Z Stream → Prop :=
| grows_refl c : grows c c
| grows_step c c' hist dt k s :
    grows c c' →
    c' !! k = None →
    streamCreator_ hist dt k = Some s →
    grows c (<[k := s]> c').

End Growth.

Section Synced.

Variable currentStreamProvider_ : stream_factory_t.

(** What the second loop of [waitForCurrentStreams] is expected to do to
    the outside world, entry by entry: ask the provider; if it names an
    ambient stream, construct a new event, record it on the ambient stream
    and make the reserved stream block on it; otherwise nothing.
    [Synced hist es n tr]: visiting the entries [es] after the history
    [hist], with [n] events constructed so far, adds the calls [tr]. *)
Inductive Synced : list Call → list (Z * Stream) → nat → list Call → Prop :=
| Synced_nil hist n : Synced hist [] n []
| Synced_absent hist idx s rest n tr :
    let ask := ProviderCall (device_type s) idx None in
    currentStreamProvider_ hist (device_type s) idx = None →
    Synced (hist ++ [ask]) rest n tr →
    Synced hist ((idx, s) :: rest) n (ask :: tr)
| Synced_ambient hist idx s cur rest n tr :
    let ask := ProviderCall (device_type s) idx (Some cur) in
    let event := {| event_id := n; event_device_type := device_type s |} in
    currentStreamProvider_ hist (device_type s) idx = Some cur →
    Synced (hist ++ [ask; EventRecord event cur; EventBlock event s])
           rest (S n) tr →
    Synced hist ((idx, s) :: rest) n
           (ask :: EventRecord event cur :: EventBlock event s :: tr).

End Synced.

(** Factories used in the examples: a creator that serves accelerators
    only, a creator that hands the same stream to everybody, a provider that
    never names an ambient stream and one that names a default stream per
    accelerator device. *)
Definition accelerator_creator : stream_factory_t :=
  λ _ dt idx,
    match dt with
    | CPU => None
    | _ => Some {| stream_device := {| type := dt; index := idx |};
                   stream_id := 0 |}
    end.

Definition shared_stream : Stream :=
  {| stream_device := {| type := CUDA; index := 0 |}; stream_id := 7 |}.

Definition shared_creator : stream_factory_t := λ _ _ _, Some shared_stream.

Definition no_ambient_stream : stream_factory_t := λ _ _ _, None.

Definition default_stream_provider : stream_factory_t :=
  λ _ dt idx,
    match dt with
    | CPU => None
    | _ => Some {| stream_device := {| type := dt; index := idx |};
                   stream_id := 1 |}
    end.

(** ** Observations on the history of external calls *)

Definition is_CreatorCall (c : Call) : bool :=
  match c with CreatorCall _ _ _ => true | _ => false end.

(** The index of a creator call that was answered with a stream. *)
Definition created_index (c : Call) : option Z :=
  match c with CreatorCall _ idx (Some _) => Some idx | _ => None end.

(** The device type and index a provider call was made with. *)
Definition asked (c : Call) : option (DeviceType * Z) :=
  match c with ProviderCall dt idx _ => Some (dt, idx) | _ => None end.

(** A provider call that was answered with an ambient stream. *)
Definition answered (c : Call) : bool :=
  match c with ProviderCall _ _ (Some _) => true | _ => false end.

Definition is_EventCall (c : Call) : bool :=
  match c with EventRecord _ _ | EventBlock _ _ => true | _ => false end.

(** [Paired n tr n']: in the history [tr] the calls on events come in
    pairs, a [record] immediately followed by a [block] on the same event,
    whose device type is that of the blocked stream; the events of
    successive pairs are numbered [n], [n+1], ..., [n'-1]. *)
Inductive Paired : nat → list Call → nat → Prop :=
| Paired_nil n : Paired n [] n
| Paired_other n c tr n' :
    is_EventCall c = false → Paired n tr n' → Paired n (c :: tr) n'
| Paired_event n cur s tr n' :
    let e := {| event_id := n; event_device_type := device_type s |} in
    Paired (S n) tr n' →
    Paired n (EventRecord e cur :: EventBlock e s :: tr) n'.

(** The device indices of the given tensors, as [tensor.device().index()]
    yields them in the first loop of [waitForCurrentStreams]. *)
Definition tensor_indices (tensors : list Tensor) : gset Z :=
  list_to_set ((λ t, index (device t)) <$> tensors).

(** A creator that has no stream the first time it is asked. *)
Definition flaky_creator : stream_factory_t :=
  λ hist dt idx,
    match hist with
    | [] => None
    | _ => Some {| stream_device := {| type := dt; index := idx |};
                   stream_id := 0 |}
    end.

(** ** Byte strings and fixed-width length fields *)

Abbreviation byte := Byte.byte.

Definition byte_of_N (n : N) : byte :=
  default Byte.x00 (Byte.of_N (n mod 256)).

Fixpoint little_endian (width : nat) (n : N) : list byte :=
  match width with
  | O => []
  | S w => byte_of_N n :: little_endian w (n / 256)
  end.

Fixpoint of_little_endian (bs : list byte) : N :=
  match bs with
  | [] => 0
  | b :: rest => Byte.to_N b + 256 * of_little_endian rest
  end.

(** Modelled from the spec: the fixed-width length field of sections 3 and 6
    (8 bytes, big-endian), written and read by the helpers of
    [torch/csrc/utils/byte_order.h], which the header includes.  A number
    that does not fit wraps around. *)
Definition encodeInt64 (n : N) : list byte := rev (little_endian 8 n).

Definition decodeInt64 (bs : list byte) : N := of_little_endian (rev bs).

(** ** Messages and values *)

(** Modelled from the spec: [rpc::Message], declared outside this header;
    section 3 of the spec: a message-type tag, an opaque byte payload and a
    list of tensors.  The tag is kept as the number found on the wire. *)
Record Message := {
  payload : list byte;
  tensors : list Tensor;
  message_type : N
}.

(** Modelled from the spec: [at::IValue], declared outside this header: the
    values a pickled segment decodes to. *)
Inductive IValue :=
| INone
| IInt (i : Z)
| ITensor (t : Tensor).

(** ** PayloadNester (section 4.3 of the spec) *)

(** Modelled from the spec: [writeWrappedPayload] is only declared in the
    header (lines 73-75).  Section 4.3: append the wrapped payload to the
    original payload, then a fixed-width trailing length field equal to the
    wrapped payload's byte length.  The C++ function updates
    [originalPayload] in place; here the combined buffer is returned. *)
Definition writeWrappedPayload (originalPayload additionalPayload : list byte)
  : list byte :=
  originalPayload ++ additionalPayload
    ++ encodeInt64 (N.of_nat (length additionalPayload)).


Section PayloadNester.

(** The unpickler of [torch/csrc/jit/serialization/pickle.h]. *)
Variable unpickle : list byte → option (list IValue).


End PayloadNester.

(** ** TensorFramingOptimizer (section 4.1 of the spec) *)

(** Storage buffers by identity: [storage t] is an index into the heap. *)
Abbreviation Heap := (list (list byte)).

Definition element_size (d : ScalarType) : N :=
  match d with
  | Byte | Char | Bool => 1
  | Short | Half => 2
  | Int | Float => 4
  | Long | Double => 8
  end.

Definition numel (t : Tensor) : N := foldr N.mul 1%N (sizes t).

(** The bytes a tensor can reach: its reachable payload. *)
Definition nbytes (t : Tensor) : N := (numel t * element_size (dtype t))%N.

Definition storage_bytes (h : Heap) (t : Tensor) : list byte :=
  default [] (h !! storage t).

(** The byte content of a tensor: the slice of its storage that starts at
    its offset (counted in elements) and holds [nbytes t] bytes. *)
Definition contents (h : Heap) (t : Tensor) : list byte :=
  take (N.to_nat (nbytes t))
       (drop (N.to_nat (storage_offset t * element_size (dtype t)))
             (storage_bytes h t)).

Section TensorFramingOptimizer.

(** The fixed minimum threshold of the policy; the spec does not give its
    value. *)
Variable kMinRecopyBytes : N.

(** Modelled from the spec: the policy of section 4.1.  Without a copy the
    whole backing storage would be transmitted; a copy saves the bytes the
    tensor cannot reach.  Densify when the saving is at least half of the
    storage and exceeds the minimum threshold. *)
Definition worthRecopying (h : Heap) (t : Tensor) : bool :=
  let storageSize := N.of_nat (length (storage_bytes h t)) in
  let usefulSize := nbytes t in
  let saved := (storageSize - usefulSize)%N in
  bool_decide (storageSize ≤ 2 * saved)%N
  && bool_decide (kMinRecopyBytes < saved)%N.

(** [t.clone()]: a new storage holding exactly the tensor's bytes. *)
Definition clone (h : Heap) (t : Tensor) : Tensor * Heap :=
  ({| sizes := sizes t; dtype := dtype t; storage := length h;
      storage_offset := 0; device := device t |},
   h ++ [contents h t]).

(** Modelled from the spec: [cloneSparseTensors] is only declared in the
    header (lines 68-69).  Section 4.1: every tensor that meets the policy is
    replaced by a tightly packed copy in newly allocated storage, all others
    are passed through; the inputs are not written to. *)
Fixpoint cloneSparseTensors (tensors : list Tensor) (h : Heap)
  : list Tensor * Heap :=
  match tensors with
  | [] => ([], h)
  | t :: rest =>
      let '(t', h1) := if worthRecopying h t then clone h t else (t, h) in
      let '(rest', h2) := cloneSparseTensors rest h1 in
      (t' :: rest', h2)
  end.

(** The policy in the words of section 8: the tensor occupies at most half
    of its storage and the bytes saved exceed the threshold. *)
Definition sparse (h : Heap) (t : Tensor) : Prop :=
  (2 * nbytes t ≤ N.of_nat (length (storage_bytes h t)) ∧
   kMinRecopyBytes < N.of_nat (length (storage_bytes h t)) - nbytes t)%N.

#[global] Instance sparse_dec h t : Decision (sparse h t).
Proof. unfold sparse. apply _. Defined.

(** What becomes of the tensor at each position. *)
Definition densified_at (h h' : Heap) (t t' : Tensor) : Prop :=
  if decide (sparse h t)
  then sizes t' = sizes t ∧ dtype t' = dtype t ∧ device t' = device t ∧
       storage_offset t' = 0%N ∧
       length h ≤ storage t' ∧
       h' !! storage t' = Some (contents h t)
  else t' = t.

End TensorFramingOptimizer.

(** ** WireCodec (sections 4.2 and 6 of the spec) *)

(** One row of the metadata table: shape, element type, where the tensor
    starts in its storage, and the byte length of the storage that
    follows. *)
Record TensorMeta := {
  meta_sizes : list N;
  meta_dtype : ScalarType;
  meta_offset : N;
  meta_nbytes : N
}.

Definition dtype_code (d : ScalarType) : N :=
  match d with
  | Byte => 0 | Char => 1 | Short => 2 | Int => 3 | Long => 4
  | Half => 5 | Float => 6 | Double => 7 | Bool => 11
  end.

Definition dtype_of_code (c : N) : option ScalarType :=
  match c with
  | 0 => Some Byte | 1 => Some Char | 2 => Some Short | 3 => Some Int
  | 4 => Some Long | 5 => Some Half | 6 => Some Float | 7 => Some Double
  | 11 => Some Bool
  | _ => None
  end%N.

Definition serialize_entry (e : TensorMeta) : list byte :=
  encodeInt64 (dtype_code (meta_dtype e))
  ++ encodeInt64 (meta_offset e)
  ++ encodeInt64 (meta_nbytes e)
  ++ encodeInt64 (N.of_nat (length (meta_sizes e)))
  ++ concat (encodeInt64 <$> meta_sizes e).

(** Modelled from the spec: the self-describing metadata table of section
    4.2, step (1): the number of rows, then the rows, every field a
    fixed-width integer. *)
Definition serialize_table (table : list TensorMeta) : list byte :=
  encodeInt64 (N.of_nat (length table)) ++ concat (serialize_entry <$> table).

Definition read_u64 (bs : list byte) : option (N * list byte) :=
  if decide (length bs < 8) then None
  else Some (decodeInt64 (take 8 bs), drop 8 bs).

Fixpoint read_many (n : nat) (bs : list byte) : option (list N * list byte) :=
  match n with
  | O => Some ([], bs)
  | S k =>
      '(x, bs1) ← read_u64 bs;
      '(xs, bs2) ← read_many k bs1;
      Some (x :: xs, bs2)
  end.

Definition parse_entry (bs : list byte) : option (TensorMeta * list byte) :=
  '(code, bs1) ← read_u64 bs;
  d ← dtype_of_code code;
  '(offset, bs2) ← read_u64 bs1;
  '(len, bs3) ← read_u64 bs2;
  '(ndim, bs4) ← read_u64 bs3;
  if decide (N.of_nat (length bs4) < 8 * ndim)%N then None
  else
    '(dims, bs5) ← read_many (N.to_nat ndim) bs4;
    Some ({| meta_sizes := dims; meta_dtype := d; meta_offset := offset;
             meta_nbytes := len |}, bs5).

Fixpoint parse_entries (n : nat) (bs : list byte)
  : option (list TensorMeta * list byte) :=
  match n with
  | O => Some ([], bs)
  | S k =>
      '(e, bs1) ← parse_entry bs;
      '(es, bs2) ← parse_entries k bs1;
      Some (e :: es, bs2)
  end.

(** A row takes at least 32 bytes, so a count the section cannot hold is
    rejected before any row is read. *)
Definition parse_table (bs : list byte) : option (list TensorMeta) :=
  '(count, bs1) ← read_u64 bs;
  if decide (N.of_nat (length bs1) < 32 * count)%N then None
  else
    '(table, _) ← parse_entries (N.to_nat count) bs1;
    Some table.

Definition total_nbytes (table : list TensorMeta) : N :=
  foldr (λ e acc, meta_nbytes e + acc)%N 0%N table.

Fixpoint split_storages (table : list TensorMeta) (bs : list byte) : Heap :=
  match table with
  | [] => []
  | e :: rest =>
      take (N.to_nat (meta_nbytes e)) bs
      :: split_storages rest (drop (N.to_nat (meta_nbytes e)) bs)
  end.

(** A received tensor lives on the host, in the storage of its row. *)
Definition tensor_of_meta (i : nat) (e : TensorMeta) : Tensor :=
  {| sizes := meta_sizes e; dtype := meta_dtype e; storage := i;
     storage_offset := meta_offset e;
     device := {| type := CPU; index := (-1)%Z |} |}.

Definition meta_of (h : Heap) (t : Tensor) : TensorMeta :=
  {| meta_sizes := sizes t; meta_dtype := dtype t;
     meta_offset := storage_offset t;
     meta_nbytes := N.of_nat (length (storage_bytes h t)) |}.

(** A row whose fields fit the fixed-width encoding. *)
Definition fits (e : TensorMeta) : Prop :=
  (meta_offset e < 2 ^ 64)%N ∧ (meta_nbytes e < 2 ^ 64)%N ∧
  (N.of_nat (length (meta_sizes e)) < 2 ^ 64)%N ∧
  Forall (λ d, d < 2 ^ 64)%N (meta_sizes e).

(** The size in bytes of the metadata table of the given tensors. *)
Definition table_bytes (tensors : list Tensor) : N :=
  foldr (λ t acc, 32 + 8 * N.of_nat (length (sizes t)) + acc)%N 8%N tensors.

(** What the fixed-width fields of the wire format can carry: every length,
    offset and dimension is below [2^64], as [size_t] and [int64_t] values
    are. *)
Definition encodable (payload : list byte) (tensors : list Tensor) (h : Heap)
  : Prop :=
  (N.of_nat (length payload) < 2 ^ 64)%N ∧
  (table_bytes tensors < 2 ^ 64)%N ∧
  Forall (λ t, (storage_offset t < 2 ^ 64)%N ∧
               (N.of_nat (length (storage_bytes h t)) < 2 ^ 64)%N ∧
               Forall (λ d, d < 2 ^ 64)%N (sizes t)) tensors.

(** The framing of section 6:
    [payload_len][meta_len][payload][metadata table][storage bytes]. *)
Definition frame (payload meta blob : list byte) : list byte :=
  encodeInt64 (N.of_nat (length payload))
  ++ encodeInt64 (N.of_nat (length meta))
  ++ payload ++ meta ++ blob.

Section WireCodec.

Variable kMinRecopyBytes : N.

(** Modelled from the spec: [wireSerialize] is only declared in the header
    (lines 51-53).  Sections 4.2 and 6: the tensors go through the
    densification of section 4.1 (the round-trip law speaks of
    [densify(tensors)]); the buffer is the two fixed-width lengths, the
    payload verbatim, the metadata table, then every tensor's storage bytes
    in table order. *)
Definition wireSerialize (payload : list byte) (tensors : list Tensor)
    (h : Heap) : list byte :=
  let '(dense, h') := cloneSparseTensors kMinRecopyBytes tensors h in
  frame payload (serialize_table (meta_of h' <$> dense))
        (concat (storage_bytes h' <$> dense)).

End WireCodec.

(** Modelled from the spec: [wireDeserialize] is only declared in the header
    (lines 55-57); [data] is the buffer of [data_size] bytes.  Section 4.2:
    the payload and the tensors are rebuilt from the header lengths and the
    metadata table; header lengths that the buffer cannot hold, a metadata
    section that does not parse, or a table that references more storage
    bytes than remain are a [FormatError].  The result carries the received
    storages: tensor [i] lives in storage [i]. *)
Definition wireDeserialize (data : list byte)
  : outcome (list byte * list Tensor * Heap) :=
  if decide (length data < 16) then Thrown (FormatError None)
  else
    let payload_len := decodeInt64 (take 8 data) in
    let meta_len := decodeInt64 (take 8 (drop 8 data)) in
    if decide (N.of_nat (length data) < 16 + payload_len + meta_len)%N
    then Thrown (FormatError None)
    else
      let body := drop 16 data in
      let payload := take (N.to_nat payload_len) body in
      let meta :=
        take (N.to_nat meta_len) (drop (N.to_nat payload_len) body) in
      let rest :=
        drop (N.to_nat payload_len + N.to_nat meta_len) body in
      match parse_table meta with
      | None => Thrown (FormatError None)
      | Some table =>
          if decide (N.of_nat (length rest) < total_nbytes table)%N
          then Thrown (FormatError None)
          else Returned (payload, imap tensor_of_meta table,
                         split_storages table rest)
      end.

(** ** MessageRouter (section 4.4 of the spec) *)

Section MessageRouter.

(** The command objects ([RpcCommandBase] and its subclasses,
    [rpc_command_base.h]) are external: a command is whatever the decoder
    registered for a tag builds from a message. *)
Variable RpcCommandBase : Type.

(** The lookup table of decoders, one per supported message type. *)
Variable fromMessage : N → option (Message → outcome RpcCommandBase).

(** The tag of a response wrapped for forward autograd. *)
Variable FORWARD_AUTOGRAD_RESP : N.

Variable unpickle : list byte → option (list IValue).

Definition dispatch (message : Message) : outcome RpcCommandBase :=
  match fromMessage (message_type message) with
  | Some decode => decode message
  | None => Thrown (UnsupportedMessageType (message_type message))
  end.

(** Modelled from the spec: [deserializeRequest] is only declared in the
    header (lines 28-29).  Section 4.4: dispatch on the message-type tag to
    rebuild the command object; unknown or unsupported tags fail with
    [UnsupportedMessageType]. *)
Definition deserializeRequest (request : Message) : outcome RpcCommandBase :=
  dispatch request.



End MessageRouter.

(** ** Fixtures for the examples *)

(** A context in which device 1 was reserved by an earlier call. *)
Definition context_with_device_1 : Machine :=
  (getStream accelerator_creator CUDA 1%Z fresh_context).2.

Definition tensor_on (d : Device) : Tensor :=
  {| sizes := [2%N; 3%N]; dtype := Float; storage := 0;
     storage_offset := 0%N; device := d |}.

Definition host : Device := {| type := CPU; index := (-1)%Z |}.

Definition cuda (i : Z) : Device := {| type := CUDA; index := i |}.

(** A heap with a storage of 16 bytes and a storage of 4 bytes. *)
Definition example_heap : Heap :=
  [ [Byte.x00; Byte.x01; Byte.x02; Byte.x03; Byte.x04; Byte.x05; Byte.x06;
     Byte.x07; Byte.x08; Byte.x09; Byte.x0a; Byte.x0b; Byte.x0c; Byte.x0d;
     Byte.x0e; Byte.x0f];
    [Byte.x10; Byte.x11; Byte.x12; Byte.x13] ].

(** A 2x2 view of four bytes into the 16-byte storage, and a tensor that
    fills the 4-byte storage. *)
Definition small_view : Tensor :=
  {| sizes := [2%N; 2%N]; dtype := Byte; storage := 0;
     storage_offset := 3%N; device := host |}.

Definition full_tensor : Tensor :=
  {| sizes := [4%N]; dtype := Byte; storage := 1;
     storage_offset := 0%N; device := host |}.

Definition example_payload : list byte := [Byte.x2a; Byte.xff].

(** A stand-in for the unpickler: one value per byte. *)
Definition byte_unpickle (bs : list byte) : option (list IValue) :=
  Some ((λ b, IInt (Z.of_N (Byte.to_N b))) <$> bs).

(** Message types of the scenario of section 8. *)
Definition SCRIPT_RET : N := 1.

(** A decoder table that knows script responses only; the command is the
    list of values in the payload. *)
Definition script_decoders (tag : N)
  : option (Message → outcome (list IValue)) :=
  if decide (tag = SCRIPT_RET)
  then Some (λ m, match byte_unpickle (payload m) with
                  | Some values => Returned values
                  | None => Thrown (FormatError (Some (message_type m)))
                  end)
  else None.


(* ================================================================== *)
(** * Properties *)

(** ** LazyStreamContext *)

Section LazyStreamContext_facts.

Variable streamCreator_ : stream_factory_t.
Variable currentStreamProvider_ : stream_factory_t.
Variable iteration_order : gmap Z Stream → list (Z * Stream).
Hypothesis iteration_order_perm :
  ∀ m : gmap Z Stream, iteration_order m ≡ₚ map_to_list m.

#[local] Abbreviation getStream := (getStream streamCreator_).
#[local] Abbreviation run := (run streamCreator_ currentStreamProvider_ iteration_order).
#[local] Abbreviation exec := (exec streamCreator_ currentStreamProvider_ iteration_order).

Lemma getStream_hit dt idx s m :
  streams_ m !! idx = Some s →
  getStream dt idx m = (Returned (Some s), m).
Proof. intros H. unfold getStream, bind, find. simpl. by rewrite H. Qed.

Lemma getStream_created dt idx s m :
  streams_ m !! idx = None →
  streamCreator_ (calls m) dt idx = Some s →
  getStream dt idx m =
    (Returned (Some s),
     {| streams_ := <[idx := s]> (streams_ m);
        calls := calls m ++ [CreatorCall dt idx (Some s)];
        events := events m |}).
Proof.
  intros Hm Hc. unfold getStream, bind, find, call_streamCreator, emplace.
  simpl. rewrite Hm. simpl. rewrite Hc. simpl. by rewrite Hm.
Qed.

Lemma getStream_refused dt idx m :
  streams_ m !! idx = None →
  streamCreator_ (calls m) dt idx = None →
  getStream dt idx m =
    (Thrown (runtime_error "Only CUDA streams are supported"),
     {| streams_ := streams_ m;
        calls := calls m ++ [CreatorCall dt idx None];
        events := events m |}).
Proof.
  intros Hm Hc. unfold getStream, bind, find, call_streamCreator.
  simpl. rewrite Hm. simpl. by rewrite Hc.
Qed.

(** The three ways a call of [getStream] can go. *)
Lemma getStream_cases dt idx m :
  (∃ s, streams_ m !! idx = Some s ∧
        getStream dt idx m = (Returned (Some s), m)) ∨
  (∃ s, streams_ m !! idx = None ∧
        streamCreator_ (calls m) dt idx = Some s ∧
        getStream dt idx m =
          (Returned (Some s),
           {| streams_ := <[idx := s]> (streams_ m);
              calls := calls m ++ [CreatorCall dt idx (Some s)];
              events := events m |})) ∨
  (streams_ m !! idx = None ∧
   streamCreator_ (calls m) dt idx = None ∧
   getStream dt idx m =
     (Thrown (runtime_error "Only CUDA streams are supported"),
      {| streams_ := streams_ m;
         calls := calls m ++ [CreatorCall dt idx None];
         events := events m |})).
Proof.
  destruct (streams_ m !! idx) as [s|] eqn:Hm.
  - left. exists s. split; [done|]. by apply getStream_hit.
  - right. destruct (streamCreator_ (calls m) dt idx) as [s|] eqn:Hc.
    + left. exists s. repeat split; try done. by apply getStream_created.
    + right. repeat split; try done. by apply getStream_refused.
Qed.

Lemma grows_trans c1 c2 c3 :
  grows streamCreator_ c1 c2 → grows streamCreator_ c2 c3 →
  grows streamCreator_ c1 c3.
Proof. intros H12 H23. induction H23; [done|]. econstructor; eauto. Qed.

(** A cached stream is never replaced or dropped. *)
Lemma grows_lookup c c' k s :
  grows streamCreator_ c c' → c !! k = Some s → c' !! k = Some s.
Proof.
  intros Hg Hk. induction Hg as [|c c' hist dt k' s' _ IH Hfree _]; [done|].
  rewrite lookup_insert_ne; [by apply IH|].
  intros ->. rewrite (IH Hk) in Hfree. done.
Qed.

(** If the creator only hands out streams of the device index it was asked
    for, every cached stream sits under its own device index. *)
Lemma grows_index c c' :
  (∀ hist dt k s, streamCreator_ hist dt k = Some s →
                  index (stream_device s) = k) →
  (∀ k s, c !! k = Some s → index (stream_device s) = k) →
  grows streamCreator_ c c' →
  ∀ k s, c' !! k = Some s → index (stream_device s) = k.
Proof.
  intros Hcreator Hc Hg. induction Hg as [|c c' hist dt k' s' _ IH _ Hs'];
    [done|].
  intros k s. destruct (decide (k' = k)) as [->|Hne].
  - rewrite lookup_insert_eq. intros [= <-]. eauto.
  - rewrite lookup_insert_ne by done. by apply IH.
Qed.

Lemma getStream_grows dt idx m :
  grows streamCreator_ (streams_ m) (streams_ (getStream dt idx m).2).
Proof.
  destruct (getStream_cases dt idx m)
    as [(s' & _ & ->) | [(s' & Hm & Hc & ->) | (_ & _ & ->)]]; simpl;
    try apply grows_refl.
  eapply grows_step; [apply grows_refl|done|exact Hc].
Qed.

Lemma reserve_streams_cons t rest m :
  reserve_streams streamCreator_ (t :: rest) m =
    match getStream (type (device t)) (index (device t)) m with
    | (Returned _, m') => reserve_streams streamCreator_ rest m'
    | (Thrown e, m') => (Thrown e, m')
    end.
Proof.
  unfold reserve_streams. simpl. unfold bind at 1. unfold bind at 1.
  by destruct (getStream (type (device t)) (index (device t)) m) as [[r|e] m'].
Qed.

Lemma reserve_streams_grows tensors : ∀ m,
  grows streamCreator_ (streams_ m)
        (streams_ (reserve_streams streamCreator_ tensors m).2).
Proof.
  induction tensors as [|t rest IH]; intros m; [apply grows_refl|].
  rewrite reserve_streams_cons.
  pose proof (getStream_grows (type (device t)) (index (device t)) m) as Hg.
  destruct (getStream (type (device t)) (index (device t)) m)
    as [[r|e] m']; simpl in *; [|done].
  eapply grows_trans; [exact Hg|apply IH].
Qed.

(** The second loop: it returns, leaves [streams_] alone and does to the
    outside world what [Synced] describes. *)
Lemma sync_loop es : ∀ m,
  ∃ tr k,
    for_each es (sync_entry currentStreamProvider_) m =
      (Returned tt,
       {| streams_ := streams_ m; calls := calls m ++ tr;
          events := events m + k |}) ∧
    Synced currentStreamProvider_ (calls m) es (events m) tr.
Proof.
  induction es as [|[idx s] rest IH]; intros m.
  - exists [], 0. split; [|constructor].
    simpl. unfold ret. rewrite app_nil_r, Nat.add_0_r. by destruct m.
  - simpl. unfold bind at 1, sync_entry at 1, bind at 1.
    unfold call_currentStreamProvider, bind, log, ret. simpl.
    destruct (currentStreamProvider_ (calls m) (device_type s) idx)
      as [cur|] eqn:Hp.
    + unfold new_Event. simpl.
      set (m1 := {| streams_ := streams_ m; calls := _; events := _ |}).
      destruct (IH m1) as (tr & k & -> & Hs). subst m1. simpl in *.
      eexists (_ :: _ :: _ :: tr), (S k). split.
      * f_equal. f_equal; [|lia].
        rewrite <- !app_assoc. done.
      * apply Synced_ambient; [done|].
        rewrite <- !app_assoc in Hs. exact Hs.
    + set (m1 := {| streams_ := streams_ m; calls := _; events := _ |}).
      destruct (IH m1) as (tr & k & -> & Hs). subst m1. simpl in *.
      eexists (_ :: tr), k. split.
      * f_equal. f_equal. rewrite <- !app_assoc. done.
      * apply Synced_absent; done.
Qed.

Lemma waitForCurrentStreams_grows tensors m :
  grows streamCreator_ (streams_ m)
    (streams_ (waitForCurrentStreams streamCreator_ currentStreamProvider_
                 iteration_order tensors m).2).
Proof.
  unfold waitForCurrentStreams, bind at 1.
  pose proof (reserve_streams_grows tensors m) as Hg.
  destruct (reserve_streams streamCreator_ tensors m) as [[[]|e] m1];
    simpl in *; [|done].
  unfold bind, entries.
  destruct (sync_loop (iteration_order (streams_ m1)) m1)
    as (tr & n & -> & _). done.
Qed.

Lemma exec_grows o m :
  grows streamCreator_ (streams_ m) (streams_ (exec o m)).
Proof.
  destruct o; simpl.
  - apply getStream_grows.
  - apply waitForCurrentStreams_grows.
  - apply grows_refl.
  - apply grows_refl.
Qed.

Lemma run_grows ops : ∀ m,
  grows streamCreator_ (streams_ m) (streams_ (run ops m)).
Proof.
  induction ops as [|o ops IH]; intros m; [apply grows_refl|].
  simpl. eapply grows_trans; [apply exec_grows|apply IH].
Qed.

Lemma getStream_returns_cached dt idx m r :
  (getStream dt idx m).1 = Returned r →
  ∃ s, r = Some s ∧ streams_ (getStream dt idx m).2 !! idx = Some s.
Proof.
  destruct (getStream_cases dt idx m)
    as [(s & Hm & ->) | [(s & Hm & _ & ->) | (_ & _ & ->)]]; simpl;
    intros [= <-] || intros [=]; exists s; split; try done.
  by rewrite lookup_insert_eq.
Qed.

Lemma reserve_streams_covers tensors : ∀ m m1,
  reserve_streams streamCreator_ tensors m = (Returned tt, m1) →
  ∀ t, t ∈ tensors → is_Some (streams_ m1 !! index (device t)).
Proof.
  induction tensors as [|t0 rest IH]; intros m m1 Hr t Ht.
  - by apply elem_of_nil in Ht.
  - rewrite reserve_streams_cons in Hr.
    pose proof (getStream_returns_cached
                  (type (device t0)) (index (device t0)) m) as Hc.
    destruct (getStream (type (device t0)) (index (device t0)) m)
      as [[r|e] m'] eqn:Hg; simpl in *; [|done].
    destruct (Hc r eq_refl) as (s & -> & Hs).
    apply elem_of_cons in Ht as [-> | Ht].
    + exists s.
      pose proof (reserve_streams_grows rest m') as Hk. rewrite Hr in Hk.
      by apply (grows_lookup _ _ _ _ Hk).
    + by apply (IH m' m1).
Qed.

Lemma iteration_order_lookup (streams : gmap Z Stream) idx s :
  (idx, s) ∈ iteration_order streams ↔ streams !! idx = Some s.
Proof. rewrite iteration_order_perm. apply elem_of_map_to_list. Qed.

(** C2, as amended: on a cache miss for which the injected creator returns
    no stream, [getStream] throws [std::runtime_error] whatever the device
    type, the host included; and a call that returns always returns a
    stream, never the absent value. *)
Theorem getStream_absent_stream_throws dt idx m :
  streams_ m !! idx = None →
  streamCreator_ (calls m) dt idx = None →
  (getStream dt idx m).1 =
    Thrown (runtime_error "Only CUDA streams are supported") ∧
  (∀ dt' idx' m', (getStream dt' idx' m').1 ≠ Returned None).
Proof.
  intros Hm Hc. split.
  - by rewrite getStream_refused.
  - intros dt' idx' m' Hr.
    by destruct (getStream_returns_cached dt' idx' m' None Hr) as (s & ? & _).
Qed.

(** C3, as amended: the first call for an index asks the creator once and
    caches the stream it got; every later call for that index, after any
    further use of the context, returns that very stream and leaves the
    machine (and so the history of creator calls) unchanged; and a later
    call for a different index returns a different stream provided the
    creator only hands out streams that carry the device index asked for. *)
Theorem getStream_idempotent_per_index dt idx s m :
  streams_ m !! idx = None →
  streamCreator_ (calls m) dt idx = Some s →
  let m' := {| streams_ := <[idx := s]> (streams_ m);
               calls := calls m ++ [CreatorCall dt idx (Some s)];
               events := events m |} in
  getStream dt idx m = (Returned (Some s), m') ∧
  (∀ ops, getStream dt idx (run ops m') = (Returned (Some s), run ops m')) ∧
  ((∀ hist dt' k s', streamCreator_ hist dt' k = Some s' →
                      index (stream_device s') = k) →
   (∀ k s', streams_ m !! k = Some s' → index (stream_device s') = k) →
   ∀ ops dt' idx' s',
     idx' ≠ idx →
     (getStream dt' idx' (run ops m')).1 = Returned (Some s') →
     s' ≠ s).
Proof.
  intros Hm Hc m'. split; [by apply getStream_created|]. split.
  - intros ops. apply getStream_hit.
    apply (grows_lookup _ _ _ _ (run_grows ops m')).
    subst m'. simpl. by rewrite lookup_insert_eq.
  - intros Hcreator Hinv ops dt' idx' s' Hne Hr.
    assert (index (stream_device s) = idx) as Hs by eauto.
    assert (index (stream_device s') = idx') as Hs'; [|congruence].
    destruct (getStream_cases dt' idx' (run ops m'))
      as [(s1 & Hk & Hg) | [(s1 & Hk & Hc1 & Hg) | (_ & _ & Hg)]];
      rewrite Hg in Hr; simpl in Hr; [| |done].
    + injection Hr as ->.
      apply (grows_index (streams_ m) (streams_ (run ops m')) Hcreator Hinv)
        with (k := idx'); [|done].
      eapply grows_trans; [|apply run_grows].
      subst m'. simpl. eapply grows_step; [apply grows_refl|done|exact Hc].
    + injection Hr as ->. eauto.
Qed.

(** C9: the cache [streams_] is keyed by the device index alone.  A call
    [getStream typeA idx] that returns, returns a stream and leaves it in
    [streams_] under [idx]: the stream that was there, the machine being
    left as it was, or else the creator's answer for [typeA] and [idx],
    asked once and stored under [idx].  The entry stays whatever is done
    with the context afterwards, and every later call [getStream typeB
    idx], whatever [typeB], returns that stream and leaves the machine as
    it found it: the creator is not asked again. *)
Theorem getStream_ignores_device_type typeA typeB idx m r ops :
  (getStream typeA idx m).1 = Returned r →
  let first := (getStream typeA idx m).2 in
  let later := run ops first in
  (∃ s, r = Some s ∧
        streams_ first !! idx = Some s ∧
        streams_ later !! idx = Some s ∧
        match streams_ m !! idx with
        | Some cached => s = cached ∧ first = m
        | None =>
            streamCreator_ (calls m) typeA idx = Some s ∧
            calls first = calls m ++ [CreatorCall typeA idx (Some s)] ∧
            streams_ first = <[idx := s]> (streams_ m)
        end) ∧
  getStream typeB idx later = (Returned r, later) ∧
  calls (getStream typeB idx later).2 = calls later.
Proof.
  intros Hr first later.
  assert (∃ s, r = Some s ∧
               streams_ first !! idx = Some s ∧
               match streams_ m !! idx with
               | Some cached => s = cached ∧ first = m
               | None =>
                   streamCreator_ (calls m) typeA idx = Some s ∧
                   calls first = calls m ++ [CreatorCall typeA idx (Some s)] ∧
                   streams_ first = <[idx := s]> (streams_ m)
               end) as (s & -> & Hs & Hfirst).
  { subst later first.
    destruct (getStream_cases typeA idx m)
      as [(s & Hm & Hg) | [(s & Hm & Hc & Hg) | (_ & _ & Hg)]];
      rewrite Hg in Hr |- *; simpl in *; [| |done].
    - injection Hr as <-. exists s. by rewrite Hm.
    - injection Hr as <-. exists s. by rewrite Hm, lookup_insert_eq. }
  assert (streams_ later !! idx = Some s) as Hlater.
  { subst later. by apply (grows_lookup _ _ _ _ (run_grows ops _)). }
  split; [by exists s|].
  by rewrite (getStream_hit typeB idx s later Hlater).
Qed.

(** C10: if the first loop reserves a stream for the device of every given
    tensor without throwing, [waitForCurrentStreams] returns; it visits every
    entry of [streams_], which holds every stream reserved before the call
    (under its index) as well as one for each tensor's device index; and for
    each visited entry it asks the current-stream provider with the reserved
    stream's device type and the entry's index and, exactly when the answer
    is a stream, records a newly constructed event on that stream and makes
    the reserved stream block on it ([Synced]).  [streams_] is not changed
    by the second loop. *)
Theorem waitForCurrentStreams_syncs_every_reserved_device tensors m m1 :
  reserve_streams streamCreator_ tensors m = (Returned tt, m1) →
  ∃ tr k,
    waitForCurrentStreams streamCreator_ currentStreamProvider_
      iteration_order tensors m =
      (Returned tt,
       {| streams_ := streams_ m1; calls := calls m1 ++ tr;
          events := events m1 + k |}) ∧
    Synced currentStreamProvider_ (calls m1)
           (iteration_order (streams_ m1)) (events m1) tr ∧
    (∀ idx s, streams_ m !! idx = Some s →
              (idx, s) ∈ iteration_order (streams_ m1)) ∧
    (∀ t, t ∈ tensors →
          ∃ s, (index (device t), s) ∈ iteration_order (streams_ m1)) ∧
    NoDup (iteration_order (streams_ m1)).*1.
Proof.
  intros Hr.
  destruct (sync_loop (iteration_order (streams_ m1)) m1)
    as (tr & k & Hloop & Hsync).
  exists tr, k. repeat split.
  - unfold waitForCurrentStreams, bind at 1. rewrite Hr.
    unfold bind, entries. exact Hloop.
  - exact Hsync.
  - intros idx s Hk. apply iteration_order_lookup.
    pose proof (reserve_streams_grows tensors m) as Hg. rewrite Hr in Hg.
    by apply (grows_lookup _ _ _ _ Hg).
  - intros t Ht.
    destruct (reserve_streams_covers tensors m m1 Hr t Ht) as [s Hs].
    exists s. by apply iteration_order_lookup.
  - rewrite iteration_order_perm. apply NoDup_fst_map_to_list.
Qed.

End LazyStreamContext_facts.

(** Witness of C2's amended statement on the host device. *)
Lemma getStream_absent_stream_throws_witness :
  (getStream accelerator_creator CPU (-1)%Z fresh_context).1 =
    Thrown (runtime_error "Only CUDA streams are supported") ∧
  (∀ dt' idx' m',
     (getStream accelerator_creator dt' idx' m').1 ≠ Returned None).
Proof.
  apply (getStream_absent_stream_throws accelerator_creator CPU (-1)%Z
           fresh_context); reflexivity.
Defined.

(** C2 as stated fails: for the host device, with a creator that returns no
    stream, [getStream] does not return the absent value; it throws. *)
Lemma getStream_host_absent_counterexample :
  accelerator_creator (calls fresh_context) CPU (-1)%Z = None ∧
  (getStream accelerator_creator CPU (-1)%Z fresh_context).1 ≠ Returned None ∧
  (getStream accelerator_creator CPU (-1)%Z fresh_context).1 =
    Thrown (runtime_error "Only CUDA streams are supported").
Proof. repeat split. intros H. vm_compute in H. discriminate H. Qed.

(** C3 as stated fails: with a creator that hands the same stream to
    everybody, the calls for indices 0 and 1 return the same handle. *)
Lemma getStream_distinct_indices_counterexample :
  (getStream shared_creator CUDA 0%Z fresh_context).1 =
    Returned (Some shared_stream) ∧
  (getStream shared_creator CUDA 1%Z
     (getStream shared_creator CUDA 0%Z fresh_context).2).1 =
    Returned (Some shared_stream).
Proof. split; vm_compute; reflexivity. Qed.

(** Witness of C3's amended statement: the first call for CUDA device 0. *)
Lemma getStream_idempotent_per_index_witness :
  let s := {| stream_device := {| type := CUDA; index := 0%Z |};
              stream_id := 0%Z |} in
  let m' := {| streams_ := <[0%Z := s]> (streams_ fresh_context);
               calls := calls fresh_context ++ [CreatorCall CUDA 0%Z (Some s)];
               events := events fresh_context |} in
  getStream accelerator_creator CUDA 0%Z fresh_context =
    (Returned (Some s), m') ∧
  (∀ ops,
     getStream accelerator_creator CUDA 0%Z
       (run accelerator_creator default_stream_provider map_to_list ops m') =
     (Returned (Some s),
      run accelerator_creator default_stream_provider map_to_list ops m')) ∧
  ((∀ hist dt' k s', accelerator_creator hist dt' k = Some s' →
                      index (stream_device s') = k) →
   (∀ k s', streams_ fresh_context !! k = Some s' →
            index (stream_device s') = k) →
   ∀ ops dt' idx' s',
     idx' ≠ 0%Z →
     (getStream accelerator_creator dt' idx'
        (run accelerator_creator default_stream_provider map_to_list
           ops m')).1 = Returned (Some s') →
     s' ≠ s).
Proof.
  apply (getStream_idempotent_per_index accelerator_creator
           default_stream_provider map_to_list CUDA 0%Z); reflexivity.
Defined.

(** Witness of C9: a stream reserved for CUDA device 0 is what a later call
    for the host type and index 0 returns, though the creator has no stream
    for the host. *)
Lemma getStream_ignores_device_type_witness :
  let r := Some {| stream_device := {| type := CUDA; index := 0%Z |};
                   stream_id := 0%Z |} in
  let first := (getStream accelerator_creator CUDA 0%Z fresh_context).2 in
  let later :=
    run accelerator_creator default_stream_provider map_to_list
      [OpGetStream CUDA 1%Z;
       OpWaitForCurrentStreams [tensor_on {| type := CUDA; index := 2%Z |}]]
      first in
  (∃ s, r = Some s ∧
        streams_ first !! 0%Z = Some s ∧
        streams_ later !! 0%Z = Some s ∧
        match streams_ fresh_context !! 0%Z with
        | Some cached => s = cached ∧ first = fresh_context
        | None =>
            accelerator_creator (calls fresh_context) CUDA 0%Z = Some s ∧
            calls first =
              calls fresh_context ++ [CreatorCall CUDA 0%Z (Some s)] ∧
            streams_ first = <[0%Z := s]> (streams_ fresh_context)
        end) ∧
  getStream accelerator_creator CPU 0%Z later = (Returned r, later) ∧
  calls (getStream accelerator_creator CPU 0%Z later).2 = calls later.
Proof.
  apply (getStream_ignores_device_type accelerator_creator
           default_stream_provider map_to_list CUDA CPU 0%Z fresh_context).
  reflexivity.
Defined.

(** Witness of C10: device 1 was reserved earlier, the call is given one
    tensor on device 0. *)
Lemma waitForCurrentStreams_syncs_every_reserved_device_witness :
  let tensors := [tensor_on {| type := CUDA; index := 0%Z |}] in
  let m := context_with_device_1 in
  let m1 := (reserve_streams accelerator_creator tensors m).2 in
  ∃ tr k,
    waitForCurrentStreams accelerator_creator default_stream_provider
      map_to_list tensors m =
      (Returned tt,
       {| streams_ := streams_ m1; calls := calls m1 ++ tr;
          events := events m1 + k |}) ∧
    Synced default_stream_provider (calls m1)
           (map_to_list (streams_ m1)) (events m1) tr ∧
    (∀ idx s, streams_ m !! idx = Some s →
              (idx, s) ∈ map_to_list (streams_ m1)) ∧
    (∀ t, t ∈ tensors →
          ∃ s, (index (device t), s) ∈ map_to_list (streams_ m1)) ∧
    NoDup (map_to_list (streams_ m1)).*1.
Proof.
  apply (waitForCurrentStreams_syncs_every_reserved_device accelerator_creator
           default_stream_provider map_to_list (λ _, reflexivity _)).
  vm_compute. reflexivity.
Defined.

(** The run of the witness, spelled out: the provider is asked about device
    1 too, and one event per device is recorded and blocked on. *)
Example waitForCurrentStreams_two_devices :
  let s0 := {| stream_device := {| type := CUDA; index := 0%Z |};
               stream_id := 0%Z |} in
  let s1 := {| stream_device := {| type := CUDA; index := 1%Z |};
               stream_id := 0%Z |} in
  let cur0 := {| stream_device := {| type := CUDA; index := 0%Z |};
                 stream_id := 1%Z |} in
  let cur1 := {| stream_device := {| type := CUDA; index := 1%Z |};
                 stream_id := 1%Z |} in
  let e0 := {| event_id := 0; event_device_type := CUDA |} in
  let e1 := {| event_id := 1; event_device_type := CUDA |} in
  calls (waitForCurrentStreams accelerator_creator default_stream_provider
           map_to_list [tensor_on {| type := CUDA; index := 0%Z |}]
           context_with_device_1).2 =
    [CreatorCall CUDA 1%Z (Some s1); CreatorCall CUDA 0%Z (Some s0);
     ProviderCall CUDA 1%Z (Some cur1); EventRecord e0 cur1; EventBlock e0 s1;
     ProviderCall CUDA 0%Z (Some cur0); EventRecord e1 cur0; EventBlock e1 s0].
Proof. vm_compute. reflexivity. Qed.

(** With a provider that names no ambient stream the devices are still
    visited, and nothing is recorded or blocked on. *)
Example waitForCurrentStreams_no_ambient_stream :
  let s0 := {| stream_device := {| type := CUDA; index := 0%Z |};
               stream_id := 0%Z |} in
  let s1 := {| stream_device := {| type := CUDA; index := 1%Z |};
               stream_id := 0%Z |} in
  waitForCurrentStreams accelerator_creator no_ambient_stream map_to_list
    [tensor_on {| type := CUDA; index := 0%Z |}] context_with_device_1 =
    (Returned tt,
     {| streams_ := <[0%Z := s0]> (<[1%Z := s1]> ∅);
        calls := [CreatorCall CUDA 1%Z (Some s1); CreatorCall CUDA 0%Z (Some s0);
                  ProviderCall CUDA 1%Z None; ProviderCall CUDA 0%Z None];
        events := 0 |}).
Proof. vm_compute. reflexivity. Qed.

(** A host tensor, for which the creator has no stream, makes
    [waitForCurrentStreams] throw before any device is synchronised. *)
Example waitForCurrentStreams_host_tensor :
  (waitForCurrentStreams accelerator_creator default_stream_provider
     map_to_list [tensor_on {| type := CPU; index := (-1)%Z |}]
     context_with_device_1).1 =
    Thrown (runtime_error "Only CUDA streams are supported").
Proof. vm_compute. reflexivity. Qed.

(** ** Fixed-width length fields *)

Lemma to_N_byte_of_N n : Byte.to_N (byte_of_N n) = (n mod 256)%N.
Proof.
  unfold byte_of_N.
  destruct (Byte.of_N (n mod 256)) as [b|] eqn:Hb; simpl.
  - by apply Byte.to_of_N.
  - apply Byte.of_N_None_iff in Hb.
    pose proof (N.mod_upper_bound n 256). lia.
Qed.

Lemma length_little_endian w : ∀ n, length (little_endian w n) = w.
Proof. induction w as [|w IH]; intros n; simpl; [done|]. by rewrite IH. Qed.

Lemma of_little_endian_little_endian w : ∀ n,
  of_little_endian (little_endian w n) = (n mod 256 ^ N.of_nat w)%N.
Proof.
  induction w as [|w IH]; intros n.
  - simpl. by rewrite N.mod_1_r.
  - cbn [little_endian of_little_endian]. rewrite to_N_byte_of_N, IH.
    rewrite Nat2N.inj_succ, N.pow_succ_r'.
    rewrite N.Div0.mod_mul_r. lia.
Qed.

Lemma length_encodeInt64 n : length (encodeInt64 n) = 8.
Proof. unfold encodeInt64. by rewrite length_rev, length_little_endian. Qed.

Lemma decodeInt64_encodeInt64 n :
  (n < 2 ^ 64)%N → decodeInt64 (encodeInt64 n) = n.
Proof.
  intros Hn. unfold decodeInt64, encodeInt64.
  rewrite rev_involutive, of_little_endian_little_endian.
  apply N.mod_small. exact Hn.
Qed.

(** ** PayloadNester *)


Section PayloadNester_facts.

Variable unpickle : list byte → option (list IValue).


End PayloadNester_facts.

(** ** TensorFramingOptimizer *)

Lemma storage_bytes_app h fresh t :
  storage t < length h → storage_bytes (h ++ fresh) t = storage_bytes h t.
Proof. intros Ht. unfold storage_bytes. by rewrite lookup_app_l. Qed.

Lemma contents_app h fresh t :
  storage t < length h → contents (h ++ fresh) t = contents h t.
Proof. intros Ht. unfold contents. by rewrite storage_bytes_app. Qed.

Section TensorFramingOptimizer_facts.

Variable kMinRecopyBytes : N.

#[local] Abbreviation sparse := (sparse kMinRecopyBytes).
#[local] Abbreviation densified_at := (densified_at kMinRecopyBytes).

Lemma worthRecopying_sparse h t :
  worthRecopying kMinRecopyBytes h t = true ↔ sparse h t.
Proof.
  unfold worthRecopying, sparse.
  rewrite andb_true_iff, !bool_decide_eq_true. lia.
Qed.

Lemma worthRecopying_app h fresh t :
  storage t < length h →
  worthRecopying kMinRecopyBytes (h ++ fresh) t =
  worthRecopying kMinRecopyBytes h t.
Proof. intros Ht. unfold worthRecopying. by rewrite storage_bytes_app. Qed.

Lemma cloneSparseTensors_cons t rest h :
  cloneSparseTensors kMinRecopyBytes (t :: rest) h =
    if worthRecopying kMinRecopyBytes h t
    then ((clone h t).1
            :: (cloneSparseTensors kMinRecopyBytes rest (clone h t).2).1,
          (cloneSparseTensors kMinRecopyBytes rest (clone h t).2).2)
    else (t :: (cloneSparseTensors kMinRecopyBytes rest h).1,
          (cloneSparseTensors kMinRecopyBytes rest h).2).
Proof.
  simpl. destruct (worthRecopying kMinRecopyBytes h t); simpl.
  - by destruct (cloneSparseTensors kMinRecopyBytes rest _).
  - by destruct (cloneSparseTensors kMinRecopyBytes rest _).
Qed.

Lemma cloneSparseTensors_length tensors : ∀ h,
  length (cloneSparseTensors kMinRecopyBytes tensors h).1 = length tensors.
Proof.
  induction tensors as [|t rest IH]; intros h; [done|].
  rewrite cloneSparseTensors_cons.
  destruct (worthRecopying kMinRecopyBytes h t); simpl; by rewrite IH.
Qed.

Lemma cloneSparseTensors_extends tensors : ∀ h,
  ∃ fresh, (cloneSparseTensors kMinRecopyBytes tensors h).2 = h ++ fresh.
Proof.
  induction tensors as [|t rest IH]; intros h.
  - exists []. simpl. by rewrite app_nil_r.
  - rewrite cloneSparseTensors_cons.
    destruct (worthRecopying kMinRecopyBytes h t); simpl.
    + destruct (IH (h ++ [contents h t])) as [fresh ->].
      exists (contents h t :: fresh). by rewrite <- app_assoc.
    + apply IH.
Qed.

Lemma cloneSparseTensors_each tensors : ∀ h,
  Forall (λ t, storage t < length h) tensors →
  ∀ i t, tensors !! i = Some t →
    ∃ t', (cloneSparseTensors kMinRecopyBytes tensors h).1 !! i = Some t' ∧
          densified_at h (cloneSparseTensors kMinRecopyBytes tensors h).2 t t'.
Proof.
  induction tensors as [|t0 rest IH]; intros h Hwf i t Hi; [done|].
  apply Forall_cons in Hwf as [Ht0 Hrest].
  rewrite cloneSparseTensors_cons.
  destruct (worthRecopying kMinRecopyBytes h t0) eqn:Hw; simpl.
  - destruct i as [|i]; simpl in *.
    + injection Hi as <-. eexists; split; [done|].
      unfold densified_at. apply worthRecopying_sparse in Hw.
      rewrite decide_True by done.
      destruct (cloneSparseTensors_extends rest (h ++ [contents h t0]))
        as [fresh ->].
      repeat split; try done.
      rewrite <- app_assoc. by rewrite lookup_app_r, Nat.sub_diag.
    + assert (Forall (λ t, storage t < length (h ++ [contents h t0])) rest)
        as Hrest'.
      { eapply Forall_impl; [exact Hrest|].
        intros x Hx. simpl in *. rewrite length_app. simpl. lia. }
      destruct (IH _ Hrest' i t Hi) as (t' & Ht' & Hd).
      exists t'. split; [done|].
      assert (storage t < length h) as Ht.
      { eapply (Forall_lookup_1 _ _ _ _ Hrest Hi). }
      unfold densified_at in *.
      assert (sparse (h ++ [contents h t0]) t ↔ sparse h t) as Heq.
      { unfold sparse. by rewrite storage_bytes_app. }
      destruct (decide (sparse (h ++ [contents h t0]) t)) as [Hs|Hs].
      * rewrite decide_True by (by apply Heq).
        destruct Hd as (? & ? & ? & ? & Hfresh & Hlook).
        rewrite contents_app in Hlook by done.
        rewrite length_app in Hfresh. simpl in Hfresh.
        repeat split; try done. lia.
      * rewrite decide_False by (by rewrite <- Heq). done.
  - destruct i as [|i]; simpl in *.
    + injection Hi as <-. eexists; split; [done|].
      unfold densified_at. rewrite decide_False; [done|].
      rewrite <- worthRecopying_sparse. by rewrite Hw.
    + by apply IH.
Qed.

Lemma cloneSparseTensors_kept_or_fresh tensors h i t' :
  Forall (λ t, storage t < length h) tensors →
  (cloneSparseTensors kMinRecopyBytes tensors h).1 !! i = Some t' →
  tensors !! i = Some t' ∨ length h ≤ storage t'.
Proof.
  intros Hwf Hi.
  assert (is_Some (tensors !! i)) as [t Ht].
  { apply lookup_lt_is_Some. rewrite <- (cloneSparseTensors_length tensors h).
    by apply lookup_lt_is_Some. }
  destruct (cloneSparseTensors_each tensors h Hwf i t Ht) as (t'' & Ht'' & Hd).
  assert (t'' = t') as -> by congruence.
  unfold densified_at in Hd. destruct (decide (sparse h t)).
  - right. tauto.
  - left. congruence.
Qed.

(** Copies made for different positions never share a storage. *)
Lemma cloneSparseTensors_fresh_apart tensors : ∀ h,
  Forall (λ t, storage t < length h) tensors →
  ∀ i j ti tj,
    i < j →
    (cloneSparseTensors kMinRecopyBytes tensors h).1 !! i = Some ti →
    (cloneSparseTensors kMinRecopyBytes tensors h).1 !! j = Some tj →
    length h ≤ storage ti → length h ≤ storage tj →
    storage ti < storage tj.
Proof.
  induction tensors as [|t0 rest IH]; intros h Hwf i j ti tj Hij Hi Hj Hfi Hfj;
    [done|].
  apply Forall_cons in Hwf as [Ht0 Hrest].
  rewrite cloneSparseTensors_cons in Hi, Hj.
  assert (∀ h1 k t', length h ≤ length h1 →
            (cloneSparseTensors kMinRecopyBytes rest h1).1 !! k = Some t' →
            length h ≤ storage t' → length h1 ≤ storage t') as Hup.
  { intros h1 k t' Hle Hk Hf.
    assert (Forall (λ t, storage t < length h1) rest) as Hrest1.
    { eapply Forall_impl; [exact Hrest|]. intros x Hx. simpl in *. lia. }
    destruct (cloneSparseTensors_kept_or_fresh rest h1 k t' Hrest1 Hk)
      as [Hin|Hfresh]; [|done].
    pose proof (Forall_lookup_1 _ _ _ _ Hrest Hin) as Hlt. simpl in Hlt. lia. }
  destruct j as [|j]; [lia|].
  destruct (worthRecopying kMinRecopyBytes h t0); simpl in Hi, Hj.
  - assert (length h ≤ length (h ++ [contents h t0])) as Hle
      by (rewrite length_app; lia).
    pose proof (Hup _ _ _ Hle Hj Hfj) as Hj1.
    destruct i as [|i]; simpl in Hi.
    + injection Hi as <-. simpl. rewrite length_app in Hj1. simpl in Hj1. lia.
    + apply (IH (h ++ [contents h t0])) with (i := i) (j := j);
        try done; try lia.
      * eapply Forall_impl; [exact Hrest|].
        intros x Hx. simpl in *. rewrite length_app. lia.
      * by apply (Hup _ i).
  - destruct i as [|i]; simpl in Hi.
    + injection Hi as <-. lia.
    + apply (IH h) with (i := i) (j := j); try done. lia.
Qed.

(** Whatever the decision, the tensor returned at a position has the shape,
    element type and bytes of the tensor given there, it starts no later in
    its storage, and its storage is no longer. *)
Lemma cloneSparseTensors_values tensors h i t :
  Forall (λ t, storage t < length h) tensors →
  tensors !! i = Some t →
  ∃ d, (cloneSparseTensors kMinRecopyBytes tensors h).1 !! i = Some d ∧
       sizes d = sizes t ∧ dtype d = dtype t ∧
       (storage_offset d ≤ storage_offset t)%N ∧
       length (storage_bytes
                 (cloneSparseTensors kMinRecopyBytes tensors h).2 d)
         ≤ length (storage_bytes h t) ∧
       contents (cloneSparseTensors kMinRecopyBytes tensors h).2 d =
         contents h t.
Proof.
  intros Hwf Hi.
  destruct (cloneSparseTensors_each tensors h Hwf i t Hi) as (d & Hd & Hat).
  exists d. split; [done|].
  destruct (cloneSparseTensors_extends tensors h) as [fresh Hfresh].
  unfold densified_at in Hat. destruct (decide (sparse h t)) as [Hs|Hs].
  - destruct Hat as (Hsz & Hdt & Hdev & Hoff & Hge & Hlook).
    assert (nbytes d = nbytes t) as Hnb
      by (unfold nbytes, numel; by rewrite Hsz, Hdt).
    assert (storage_bytes (cloneSparseTensors kMinRecopyBytes tensors h).2 d
            = contents h t) as Hsb
      by (unfold storage_bytes; by rewrite Hlook).
    repeat split; try done.
    + lia.
    + rewrite Hsb. unfold contents. rewrite length_take, length_drop. lia.
    + unfold contents at 1. rewrite Hsb, Hnb, Hoff. simpl. rewrite drop_0.
      unfold contents. rewrite take_take. f_equal. lia.
  - subst d.
    assert (storage t < length h) as Ht
      by apply (Forall_lookup_1 _ _ _ _ Hwf Hi).
    rewrite Hfresh. rewrite storage_bytes_app, contents_app by done.
    repeat split; try done.
Qed.

(** C5: given tensors that view storages of the heap, [cloneSparseTensors]
    returns as many tensors in the same order and only adds storages to the
    heap, so no input tensor and no existing storage is written to.  The
    tensor at a position is copied exactly when it occupies at most half of
    its storage and the bytes saved exceed the threshold: the copy has the
    same shape, element type and device, and lives at offset 0 of a newly
    allocated storage that holds exactly the tensor's bytes and is shared
    with no other copy.  Every other tensor is returned as it was. *)
Theorem cloneSparseTensors_policy tensors h :
  Forall (λ t, storage t < length h) tensors →
  let out := (cloneSparseTensors kMinRecopyBytes tensors h).1 in
  let h' := (cloneSparseTensors kMinRecopyBytes tensors h).2 in
  length out = length tensors ∧
  (∃ fresh, h' = h ++ fresh) ∧
  (∀ i t, tensors !! i = Some t →
     ∃ t', out !! i = Some t' ∧
       if decide (2 * nbytes t ≤ N.of_nat (length (storage_bytes h t)) ∧
                  kMinRecopyBytes <
                    N.of_nat (length (storage_bytes h t)) - nbytes t)%N
       then sizes t' = sizes t ∧ dtype t' = dtype t ∧ device t' = device t ∧
            storage_offset t' = 0%N ∧
            length h ≤ storage t' ∧
            h' !! storage t' = Some (contents h t) ∧
            contents h' t' = contents h t
       else t' = t ∧ storage_bytes h' t' = storage_bytes h t) ∧
  (∀ i j ti tj, i ≠ j → out !! i = Some ti → out !! j = Some tj →
                length h ≤ storage ti → length h ≤ storage tj →
                storage ti ≠ storage tj).
Proof.
  intros Hwf out h'. split; [apply cloneSparseTensors_length|].
  destruct (cloneSparseTensors_extends tensors h) as [fresh Hfresh].
  split; [by exists fresh|]. split.
  - intros i t Hi.
    destruct (cloneSparseTensors_each tensors h Hwf i t Hi) as (t' & Ht' & Hd).
    exists t'. split; [done|].
    unfold densified_at, sparse in Hd.
    destruct (decide _) as [Hs|Hs].
    + destruct Hd as (Hsz & Hdt & Hdev & Hoff & Hge & Hlook).
      repeat split; try done.
      assert (nbytes t' = nbytes t) as Hnb
        by (unfold nbytes, numel; by rewrite Hsz, Hdt).
      unfold contents at 1, storage_bytes. subst h'. rewrite Hlook. simpl.
      rewrite Hnb, Hoff. simpl. rewrite drop_0.
      unfold contents. rewrite take_take. f_equal. lia.
    + subst t'. split; [done|]. subst h'. rewrite Hfresh.
      apply storage_bytes_app. apply (Forall_lookup_1 _ _ _ _ Hwf Hi).
  - intros i j ti tj Hij Hi Hj Hfi Hfj.
    destruct (decide (i < j)).
    + assert (storage ti < storage tj); [|lia].
      by apply (cloneSparseTensors_fresh_apart tensors h Hwf i j).
    + assert (storage tj < storage ti); [|lia].
      apply (cloneSparseTensors_fresh_apart tensors h Hwf j i); try done. lia.
Qed.

End TensorFramingOptimizer_facts.

(** ** WireCodec *)

#[local] Arguments encodeInt64 : simpl never.
Lemma option_bind_Some {A B} (f : A → option B) (a : A) : Some a ≫= f = f a.
Proof. reflexivity. Qed.

(** One successful read: continue with the rest of the parser. *)
Ltac parsed := rewrite option_bind_Some; cbv beta iota.

Lemma take_8_encodeInt64 n (X : list byte) :
  take 8 (encodeInt64 n ++ X) = encodeInt64 n.
Proof.
  rewrite take_app_le by (by rewrite length_encodeInt64).
  apply take_ge. by rewrite length_encodeInt64.
Qed.

Lemma drop_8_encodeInt64 n (X : list byte) : drop 8 (encodeInt64 n ++ X) = X.
Proof.
  rewrite drop_app_ge by (by rewrite length_encodeInt64).
  by rewrite length_encodeInt64.
Qed.

Lemma read_u64_encodeInt64 n rest :
  (n < 2 ^ 64)%N → read_u64 (encodeInt64 n ++ rest) = Some (n, rest).
Proof.
  intros Hn. unfold read_u64.
  rewrite decide_False by (rewrite length_app, length_encodeInt64; lia).
  rewrite <- (length_encodeInt64 n) at 1 2.
  rewrite take_app_length, drop_app_length.
  by rewrite decodeInt64_encodeInt64.
Qed.

Lemma read_many_encodeInt64 xs : ∀ rest,
  Forall (λ d, d < 2 ^ 64)%N xs →
  read_many (length xs) (concat (encodeInt64 <$> xs) ++ rest) = Some (xs, rest).
Proof.
  induction xs as [|x xs IH]; intros rest Hxs; [done|].
  apply Forall_cons in Hxs as [Hx Hxs].
  cbn [length read_many fmap list_fmap concat].
  rewrite <- app_assoc, read_u64_encodeInt64 by done. parsed.
  rewrite IH by done. by parsed.
Qed.

Lemma dtype_of_code_dtype_code d : dtype_of_code (dtype_code d) = Some d.
Proof. by destruct d. Qed.

Lemma dtype_code_bound d : (dtype_code d < 2 ^ 64)%N.
Proof. destruct d; simpl; lia. Qed.

Lemma length_concat_encodeInt64 xs :
  length (concat (encodeInt64 <$> xs)) = 8 * length xs.
Proof.
  induction xs as [|x xs IH]; [done|].
  cbn [fmap list_fmap concat length]. rewrite length_app, length_encodeInt64.
  fold (encodeInt64 <$> xs). lia.
Qed.

Lemma length_serialize_entry e :
  length (serialize_entry e) = 32 + 8 * length (meta_sizes e).
Proof.
  unfold serialize_entry.
  rewrite !length_app, !length_encodeInt64, length_concat_encodeInt64. lia.
Qed.

Lemma parse_entry_serialize_entry e rest :
  fits e → parse_entry (serialize_entry e ++ rest) = Some (e, rest).
Proof.
  intros (Hoff & Hlen & Hnd & Hdims).
  unfold parse_entry, serialize_entry. rewrite <- !app_assoc.
  rewrite read_u64_encodeInt64 by apply dtype_code_bound. parsed.
  rewrite dtype_of_code_dtype_code. parsed.
  rewrite read_u64_encodeInt64 by done. parsed.
  rewrite read_u64_encodeInt64 by done. parsed.
  rewrite read_u64_encodeInt64 by done. parsed.
  rewrite decide_False
    by (rewrite length_app, length_concat_encodeInt64; lia).
  rewrite Nat2N.id, read_many_encodeInt64 by done. parsed.
  by destruct e.
Qed.

Lemma parse_entries_serialize table : ∀ rest,
  Forall fits table →
  parse_entries (length table) (concat (serialize_entry <$> table) ++ rest) =
    Some (table, rest).
Proof.
  induction table as [|e table IH]; intros rest Hfits; [done|].
  apply Forall_cons in Hfits as [He Hfits].
  cbn [length parse_entries fmap list_fmap concat].
  rewrite <- app_assoc, parse_entry_serialize_entry by done. parsed.
  rewrite IH by done. by parsed.
Qed.

Lemma length_concat_serialize_entry table :
  32 * length table ≤ length (concat (serialize_entry <$> table)).
Proof.
  induction table as [|e table IH]; [done|].
  cbn [fmap list_fmap concat length].
  rewrite length_app, length_serialize_entry.
  fold (serialize_entry <$> table). lia.
Qed.

Lemma parse_table_serialize_table table :
  (N.of_nat (length table) < 2 ^ 64)%N →
  Forall fits table →
  parse_table (serialize_table table) = Some table.
Proof.
  intros Hcount Hfits. unfold parse_table, serialize_table.
  rewrite read_u64_encodeInt64 by done. parsed.
  pose proof (length_concat_serialize_entry table).
  rewrite decide_False by lia.
  rewrite Nat2N.id.
  rewrite <- (app_nil_r (concat _)), parse_entries_serialize by done.
  by parsed.
Qed.

Lemma drop_take_ge {A} (l : list A) m k :
  m ≤ k → drop m (take k l) = take (k - m) (drop m l).
Proof.
  intros Hmk. rewrite take_drop_commute. do 2 f_equal. lia.
Qed.

(** What [wireDeserialize] does once the two header fields are read. *)
Lemma wireDeserialize_header pl ml X :
  (pl < 2 ^ 64)%N → (ml < 2 ^ 64)%N →
  wireDeserialize (encodeInt64 pl ++ encodeInt64 ml ++ X) =
    if decide (N.of_nat (length X) < pl + ml)%N then Thrown (FormatError None)
    else
      let rest := drop (N.to_nat pl + N.to_nat ml) X in
      match parse_table (take (N.to_nat ml) (drop (N.to_nat pl) X)) with
      | None => Thrown (FormatError None)
      | Some table =>
          if decide (N.of_nat (length rest) < total_nbytes table)%N
          then Thrown (FormatError None)
          else Returned (take (N.to_nat pl) X, imap tensor_of_meta table,
                         split_storages table rest)
      end.
Proof.
  intros Hpl Hml. unfold wireDeserialize.
  rewrite !length_app, !length_encodeInt64.
  rewrite decide_False by lia.
  rewrite take_8_encodeInt64, drop_8_encodeInt64, take_8_encodeInt64.
  rewrite !decodeInt64_encodeInt64 by done.
  replace 16 with (8 + 8) by done.
  rewrite <- drop_drop, !drop_8_encodeInt64.
  destruct (decide (N.of_nat (length X) < pl + ml)%N).
  - rewrite decide_True by lia. done.
  - rewrite decide_False by lia. done.
Qed.

Lemma total_nbytes_storages table : ∀ storages : Heap,
  Forall2 (λ e s, meta_nbytes e = N.of_nat (length s)) table storages →
  total_nbytes table = N.of_nat (length (concat storages)).
Proof.
  induction table as [|e table IH]; intros storages Hts.
  - apply Forall2_nil_inv_l in Hts as ->. done.
  - apply Forall2_cons_inv_l in Hts as (s & storages' & He & Hts & ->).
    simpl. rewrite (IH storages' Hts), He, length_app. lia.
Qed.

Lemma split_storages_concat table : ∀ (storages : Heap) trailing,
  Forall2 (λ e s, meta_nbytes e = N.of_nat (length s)) table storages →
  split_storages table (concat storages ++ trailing) = storages.
Proof.
  induction table as [|e table IH]; intros storages trailing Hts.
  - apply Forall2_nil_inv_l in Hts as ->. done.
  - apply Forall2_cons_inv_l in Hts as (s & storages' & He & Hts & ->).
    simpl. rewrite He, Nat2N.id, <- app_assoc.
    rewrite take_app_length, drop_app_length. by rewrite IH.
Qed.

(** Decoding a frame whose table describes the storages that follow. *)
Lemma wireDeserialize_frame payload table (storages : Heap) :
  (N.of_nat (length payload) < 2 ^ 64)%N →
  (N.of_nat (length (serialize_table table)) < 2 ^ 64)%N →
  Forall fits table →
  Forall2 (λ e s, meta_nbytes e = N.of_nat (length s)) table storages →
  wireDeserialize (frame payload (serialize_table table) (concat storages)) =
    Returned (payload, imap tensor_of_meta table, storages).
Proof.
  intros Hp Hm Hfits Hts. unfold frame.
  assert (N.of_nat (length table) < 2 ^ 64)%N as Hcount.
  { unfold serialize_table in Hm.
    rewrite length_app, length_encodeInt64 in Hm.
    pose proof (length_concat_serialize_entry table). lia. }
  rewrite wireDeserialize_header by done.
  rewrite !length_app. rewrite decide_False by lia.
  cbv zeta. rewrite !Nat2N.id.
  rewrite drop_app_length, take_app_length.
  rewrite parse_table_serialize_table by done.
  replace (drop (length payload + length (serialize_table table))
             (payload ++ serialize_table table ++ concat storages))
    with (concat storages).
  2:{ rewrite app_assoc, <- length_app. by rewrite drop_app_length. }
  rewrite (total_nbytes_storages table storages Hts).
  rewrite decide_False by lia.
  rewrite take_app_length.
  rewrite <- (app_nil_r (concat storages)).
  by rewrite split_storages_concat.
Qed.

(** Every proper prefix of such a frame is rejected. *)
Lemma wireDeserialize_take_frame n payload table (storages : Heap) :
  (N.of_nat (length payload) < 2 ^ 64)%N →
  (N.of_nat (length (serialize_table table)) < 2 ^ 64)%N →
  Forall fits table →
  Forall2 (λ e s, meta_nbytes e = N.of_nat (length s)) table storages →
  n < length (frame payload (serialize_table table) (concat storages)) →
  wireDeserialize
    (take n (frame payload (serialize_table table) (concat storages))) =
    Thrown (FormatError None).
Proof.
  intros Hp Hm Hfits Hts Hn.
  assert (N.of_nat (length table) < 2 ^ 64)%N as Hcount.
  { unfold serialize_table in Hm.
    rewrite length_app, length_encodeInt64 in Hm.
    pose proof (length_concat_serialize_entry table). lia. }
  unfold frame in *.
  rewrite !length_app, !length_encodeInt64 in Hn.
  set (meta := serialize_table table) in *.
  set (body := payload ++ meta ++ concat storages).
  destruct (decide (n < 16)) as [Hshort|Hlong].
  - unfold wireDeserialize. rewrite decide_True; [done|].
    rewrite length_take. lia.
  - rewrite app_assoc.
    rewrite take_app_ge by (rewrite length_app, !length_encodeInt64; lia).
    rewrite length_app, !length_encodeInt64. rewrite <- app_assoc.
    rewrite wireDeserialize_header by done.
    fold body. rewrite length_take.
    assert (length body = length payload + (length meta + length (concat storages)))
      as Hbody by (subst body; by rewrite !length_app).
    destruct (decide _) as [|Hhdr]; [done|].
    cbv zeta. rewrite !Nat2N.id.
    rewrite !drop_take_ge by lia.
    rewrite take_take.
    replace (length meta `min` (n - (8 + 8) - length payload))
      with (length meta) by lia.
    subst body. rewrite drop_app_length, take_app_length.
    subst meta. rewrite parse_table_serialize_table by done.
    rewrite length_take, length_drop.
    rewrite (total_nbytes_storages table storages Hts).
    rewrite decide_True; [done|]. rewrite !length_app. lia.
Qed.

Lemma length_serialize_table_of (h' : Heap) tensors : ∀ dense,
  Forall2 (λ t d, sizes d = sizes t) tensors dense →
  N.of_nat (length (serialize_table (meta_of h' <$> dense))) =
    table_bytes tensors.
Proof.
  unfold serialize_table. intros dense Hsz.
  rewrite length_app, length_encodeInt64.
  induction Hsz as [|t d tensors dense Htd _ IH]; [done|].
  cbn [fmap list_fmap concat foldr table_bytes].
  fold (meta_of h' <$> dense). fold (serialize_entry <$> (meta_of h' <$> dense)).
  rewrite length_app, length_serialize_entry. simpl meta_sizes.
  unfold table_bytes in IH. rewrite <- IH, Htd. lia.
Qed.

Lemma table_bytes_ndim tensors i t :
  tensors !! i = Some t →
  (N.of_nat (length (sizes t)) < table_bytes tensors)%N.
Proof.
  revert i. induction tensors as [|t0 rest IH]; intros i Hi; [done|].
  destruct i as [|i]; simpl in *.
  - injection Hi as ->. lia.
  - specialize (IH i Hi). lia.
Qed.

Lemma split_storages_slices table : ∀ rest : list byte,
  (total_nbytes table ≤ N.of_nat (length rest))%N →
  concat (split_storages table rest) =
    take (N.to_nat (total_nbytes table)) rest ∧
  Forall2 (λ e s, meta_nbytes e = N.of_nat (length s))
          table (split_storages table rest).
Proof.
  induction table as [|e table IH]; intros rest Hle; simpl in *.
  - split; [by rewrite take_0|constructor].
  - destruct (IH (drop (N.to_nat (meta_nbytes e)) rest)) as [Hc Hf].
    { rewrite length_drop. lia. }
    split.
    + rewrite Hc, take_take_drop. f_equal. lia.
    + constructor; [|done]. rewrite length_take. lia.
Qed.

(** Whatever [wireDeserialize] returns was cut out of the buffer at the
    places its header and its metadata table declare. *)
Lemma wireDeserialize_Returned data p ts hr :
  wireDeserialize data = Returned (p, ts, hr) →
  ∃ meta table trailing,
    data = take 16 data ++ p ++ meta ++ concat hr ++ trailing ∧
    16 ≤ length data ∧
    decodeInt64 (take 8 data) = N.of_nat (length p) ∧
    decodeInt64 (take 8 (drop 8 data)) = N.of_nat (length meta) ∧
    parse_table meta = Some table ∧
    ts = imap tensor_of_meta table ∧
    Forall2 (λ e s, meta_nbytes e = N.of_nat (length s)) table hr.
Proof.
  unfold wireDeserialize.
  destruct (decide (length data < 16)) as [|Hlen]; [done|].
  set (pl := decodeInt64 (take 8 data)).
  set (ml := decodeInt64 (take 8 (drop 8 data))).
  destruct (decide _) as [|Hhdr]; [done|].
  set (body := drop 16 data).
  assert (length body = length data - 16) as Hbody
    by (subst body; by rewrite length_drop).
  destruct (parse_table _) as [table|] eqn:Hparse; [|done].
  destruct (decide _) as [|Hrest]; [done|].
  intros [= <- <- <-].
  rewrite length_drop in Hrest.
  destruct (split_storages_slices table
              (drop (N.to_nat pl + N.to_nat ml) body)) as [Hc Hf].
  { rewrite length_drop. lia. }
  exists (take (N.to_nat ml) (drop (N.to_nat pl) body)), table,
         (drop (N.to_nat (total_nbytes table))
               (drop (N.to_nat pl + N.to_nat ml) body)).
  repeat split; try done.
  - rewrite Hc, take_drop. rewrite <- drop_drop, take_drop, take_drop.
    subst body. by rewrite take_drop.
  - lia.
  - rewrite length_take. lia.
  - rewrite length_take, length_drop. lia.
Qed.

Section WireCodec_facts.

Variable kMinRecopyBytes : N.

(** The table and the storages [wireSerialize] puts on the wire. *)
Lemma wireSerialize_frame payload tensors h :
  wireSerialize kMinRecopyBytes payload tensors h =
    frame payload
      (serialize_table
         (meta_of (cloneSparseTensors kMinRecopyBytes tensors h).2
            <$> (cloneSparseTensors kMinRecopyBytes tensors h).1))
      (concat (storage_bytes (cloneSparseTensors kMinRecopyBytes tensors h).2
                 <$> (cloneSparseTensors kMinRecopyBytes tensors h).1)).
Proof.
  unfold wireSerialize.
  by destruct (cloneSparseTensors kMinRecopyBytes tensors h).
Qed.

Lemma wireSerialize_fits payload tensors h :
  Forall (λ t, storage t < length h) tensors →
  encodable payload tensors h →
  let dense := (cloneSparseTensors kMinRecopyBytes tensors h).1 in
  let h' := (cloneSparseTensors kMinRecopyBytes tensors h).2 in
  (N.of_nat (length (serialize_table (meta_of h' <$> dense))) < 2 ^ 64)%N ∧
  Forall fits (meta_of h' <$> dense) ∧
  Forall2 (λ e s, meta_nbytes e = N.of_nat (length s))
          (meta_of h' <$> dense) (storage_bytes h' <$> dense).
Proof.
  intros Hwf (Hp & Htb & Hts) dense h'.
  assert (length dense = length tensors) as Hlen
    by apply cloneSparseTensors_length.
  split; [|split].
  - rewrite (length_serialize_table_of h' tensors); [done|].
    apply Forall2_same_length_lookup_2; [done|].
    intros i t d Ht Hd.
    destruct (cloneSparseTensors_values kMinRecopyBytes tensors h i t Hwf Ht)
      as (d' & Hd' & Hsz & _).
    subst dense. congruence.
  - apply Forall_fmap, Forall_lookup_2. intros i d Hd.
    assert (is_Some (tensors !! i)) as [t Ht].
    { apply lookup_lt_is_Some. rewrite <- Hlen. by apply lookup_lt_is_Some. }
    destruct (cloneSparseTensors_values kMinRecopyBytes tensors h i t Hwf Ht)
      as (d' & Hd' & Hsz & Hdt & Hoff & Hsb & _).
    assert (d' = d) as -> by (subst dense; congruence).
    destruct (Forall_lookup_1 _ _ _ _ Hts Ht) as (Ho & Hs & Hdims).
    pose proof (table_bytes_ndim tensors i t Ht).
    unfold fits, meta_of. simpl. rewrite Hsz. subst h'.
    repeat split; try done; lia.
  - apply Forall2_fmap, Forall_Forall2_diag, Forall_true. done.
Qed.

(** C1: for a payload and tensors that view storages of the sender's heap
    (all sizes within the range of the fixed-width fields), decoding what
    [wireSerialize] produced returns the payload itself and as many tensors
    as were given, in the same order; the tensor received at a position has
    the shape, element type, offset, storage bytes and byte content of the
    densified tensor at that position, and hence the shape, element type and
    byte content of the tensor that was given. *)
Theorem wireDeserialize_wireSerialize payload tensors h :
  Forall (λ t, storage t < length h) tensors →
  encodable payload tensors h →
  let dense := (cloneSparseTensors kMinRecopyBytes tensors h).1 in
  let h' := (cloneSparseTensors kMinRecopyBytes tensors h).2 in
  ∃ received storages,
    wireDeserialize (wireSerialize kMinRecopyBytes payload tensors h) =
      Returned (payload, received, storages) ∧
    length received = length tensors ∧
    ∀ i t, tensors !! i = Some t →
      ∃ d r, dense !! i = Some d ∧ received !! i = Some r ∧
        (sizes r = sizes d ∧ dtype r = dtype d ∧
         storage_offset r = storage_offset d ∧
         storage_bytes storages r = storage_bytes h' d ∧
         contents storages r = contents h' d) ∧
        (sizes r = sizes t ∧ dtype r = dtype t ∧
         contents storages r = contents h t).
Proof.
  intros Hwf Henc dense h'.
  destruct (wireSerialize_fits payload tensors h Hwf Henc)
    as (Hm & Hfits & Hts).
  fold dense h' in Hm, Hfits, Hts.
  exists (imap tensor_of_meta (meta_of h' <$> dense)),
         (storage_bytes h' <$> dense).
  split; [|split].
  - rewrite wireSerialize_frame. fold dense h'.
    apply wireDeserialize_frame; try done. apply Henc.
  - rewrite length_imap, length_fmap. apply cloneSparseTensors_length.
  - intros i t Ht.
    destruct (cloneSparseTensors_values kMinRecopyBytes tensors h i t Hwf Ht)
      as (d & Hd & Hsz & Hdt & _ & _ & Hcontents).
    fold dense in Hd. fold h' in Hcontents.
    exists d, (tensor_of_meta i (meta_of h' d)).
    split; [done|]. split.
    { by rewrite list_lookup_imap, list_lookup_fmap, Hd. }
    assert (storage_bytes (storage_bytes h' <$> dense)
              (tensor_of_meta i (meta_of h' d)) = storage_bytes h' d) as Hsb.
    { unfold storage_bytes at 1. simpl. by rewrite list_lookup_fmap, Hd. }
    assert (contents (storage_bytes h' <$> dense)
              (tensor_of_meta i (meta_of h' d)) = contents h' d) as Hc.
    { unfold contents. by rewrite Hsb. }
    repeat split; try done. by rewrite Hc.
Qed.

(** C4: every proper prefix of a buffer produced by [wireSerialize] is
    rejected with [FormatError]; so is every buffer shorter than the two
    header fields, every buffer shorter than the header and the two lengths
    it declares, every buffer whose metadata section does not parse, and
    every buffer whose metadata table references more storage bytes than
    follow it.  And when [wireDeserialize] returns, the payload, the table
    and the storages it returns are consecutive slices of the buffer, of the
    lengths the header and the table declare: nothing is read past the end
    and nothing is made up. *)
Theorem wireDeserialize_rejects_malformed payload tensors h n :
  Forall (λ t, storage t < length h) tensors →
  encodable payload tensors h →
  n < length (wireSerialize kMinRecopyBytes payload tensors h) →
  wireDeserialize (take n (wireSerialize kMinRecopyBytes payload tensors h)) =
    Thrown (FormatError None) ∧
  (∀ data, length data < 16 →
           wireDeserialize data = Thrown (FormatError None)) ∧
  (∀ data,
     (N.of_nat (length data) <
        16 + decodeInt64 (take 8 data) + decodeInt64 (take 8 (drop 8 data)))%N →
     wireDeserialize data = Thrown (FormatError None)) ∧
  (∀ data,
     let payload_len := N.to_nat (decodeInt64 (take 8 data)) in
     let meta_len := N.to_nat (decodeInt64 (take 8 (drop 8 data))) in
     parse_table (take meta_len (drop (16 + payload_len) data)) = None →
     wireDeserialize data = Thrown (FormatError None)) ∧
  (∀ data table,
     let payload_len := N.to_nat (decodeInt64 (take 8 data)) in
     let meta_len := N.to_nat (decodeInt64 (take 8 (drop 8 data))) in
     parse_table (take meta_len (drop (16 + payload_len) data)) = Some table →
     (N.of_nat (length (drop (16 + payload_len + meta_len) data)) <
        total_nbytes table)%N →
     wireDeserialize data = Thrown (FormatError None)) ∧
  (∀ data p ts hr,
     wireDeserialize data = Returned (p, ts, hr) →
     ∃ meta table trailing,
       data = take 16 data ++ p ++ meta ++ concat hr ++ trailing ∧
       16 ≤ length data ∧
       decodeInt64 (take 8 data) = N.of_nat (length p) ∧
       decodeInt64 (take 8 (drop 8 data)) = N.of_nat (length meta) ∧
       parse_table meta = Some table ∧
       ts = imap tensor_of_meta table ∧
       Forall2 (λ e s, meta_nbytes e = N.of_nat (length s)) table hr).
Proof.
  intros Hwf Henc Hn.
  destruct (wireSerialize_fits payload tensors h Hwf Henc)
    as (Hm & Hfits & Hts).
  rewrite wireSerialize_frame in *.
  split; [|split; [|split; [|split; [|split]]]].
  - apply wireDeserialize_take_frame; try done. apply Henc.
  - intros data Hlen. unfold wireDeserialize. by rewrite decide_True.
  - intros data Hlen. unfold wireDeserialize.
    destruct (decide (length data < 16)); [done|]. by rewrite decide_True.
  - intros data payload_len meta_len Hparse. unfold wireDeserialize.
    destruct (decide (length data < 16)); [done|].
    destruct (decide _); [done|].
    rewrite drop_drop. fold payload_len meta_len. by rewrite Hparse.
  - intros data table payload_len meta_len Hparse Hshort.
    unfold wireDeserialize.
    destruct (decide (length data < 16)); [done|].
    destruct (decide _); [done|].
    rewrite !drop_drop. fold payload_len meta_len. rewrite Hparse.
    rewrite decide_True; [done|].
    by rewrite Nat.add_assoc.
  - apply wireDeserialize_Returned.
Qed.

End WireCodec_facts.

(** ** MessageRouter *)

Section MessageRouter_facts.

Variable RpcCommandBase : Type.
Variable fromMessage : N → option (Message → outcome RpcCommandBase).
Variable FORWARD_AUTOGRAD_RESP : N.
Variable unpickle : list byte → option (list IValue).

(** C8: a message whose tag has no decoder makes [deserializeRequest] throw
    [UnsupportedMessageType] for that tag; it returns no command object. *)
Theorem deserializeRequest_unsupported request :
  fromMessage (message_type request) = None →
  deserializeRequest RpcCommandBase fromMessage request =
    Thrown (UnsupportedMessageType (message_type request)) ∧
  (∀ rpc, deserializeRequest RpcCommandBase fromMessage request
            ≠ Returned rpc).
Proof.
  intros Hnone. unfold deserializeRequest, dispatch. rewrite Hnone.
  split; [done|]. intros rpc. discriminate.
Qed.


End MessageRouter_facts.

(** ** Witnesses on the fixtures *)

(** Witness of C1: a view of 4 bytes into a 16-byte storage (densified, the
    threshold being 4) and a tensor that fills its storage. *)
Lemma wireDeserialize_wireSerialize_witness :
  let tensors := [small_view; full_tensor] in
  let dense := (cloneSparseTensors 4 tensors example_heap).1 in
  let h' := (cloneSparseTensors 4 tensors example_heap).2 in
  ∃ received storages,
    wireDeserialize (wireSerialize 4 example_payload tensors example_heap) =
      Returned (example_payload, received, storages) ∧
    length received = length tensors ∧
    ∀ i t, tensors !! i = Some t →
      ∃ d r, dense !! i = Some d ∧ received !! i = Some r ∧
        (sizes r = sizes d ∧ dtype r = dtype d ∧
         storage_offset r = storage_offset d ∧
         storage_bytes storages r = storage_bytes h' d ∧
         contents storages r = contents h' d) ∧
        (sizes r = sizes t ∧ dtype r = dtype t ∧
         contents storages r = contents example_heap t).
Proof.
  apply (wireDeserialize_wireSerialize 4 example_payload
           [small_view; full_tensor] example_heap).
  - repeat constructor.
  - repeat first [split | constructor]; reflexivity.
Defined.

(** The buffer of the witness, byte by byte, and what it decodes to: the
    view arrives as a tensor over its own four bytes. *)
Example wire_round_trip_example :
  wireDeserialize
    (wireSerialize 4 example_payload [small_view; full_tensor] example_heap) =
    Returned
      (example_payload,
       [ {| sizes := [2%N; 2%N]; dtype := Byte; storage := 0;
            storage_offset := 0%N; device := host |};
         {| sizes := [4%N]; dtype := Byte; storage := 1;
            storage_offset := 0%N; device := host |} ],
       [ [Byte.x03; Byte.x04; Byte.x05; Byte.x06];
         [Byte.x10; Byte.x11; Byte.x12; Byte.x13] ]).
Proof. vm_compute. reflexivity. Qed.

(** The empty payload with no tensors goes through as well. *)
Example wire_round_trip_empty :
  wireDeserialize (wireSerialize 4 [] [] []) = Returned ([], [], []).
Proof. vm_compute. reflexivity. Qed.

(** Witness of C4: the buffer of the previous witness cut after 40 bytes. *)
Lemma wireDeserialize_rejects_malformed_witness :
  wireDeserialize
    (take 40 (wireSerialize 4 example_payload [small_view; full_tensor]
                example_heap)) = Thrown (FormatError None) ∧
  wireDeserialize [Byte.x00; Byte.x01] = Thrown (FormatError None) ∧
  wireDeserialize (encodeInt64 5 ++ encodeInt64 0 ++ [Byte.x01]) =
    Thrown (FormatError None) ∧
  wireDeserialize (encodeInt64 0 ++ encodeInt64 8 ++ encodeInt64 1) =
    Thrown (FormatError None) ∧
  wireDeserialize
    (frame [] (serialize_table
                 [{| meta_sizes := [4%N]; meta_dtype := Byte;
                     meta_offset := 0; meta_nbytes := 4 |}])
       [Byte.x10; Byte.x11]) = Thrown (FormatError None) ∧
  ∃ meta table trailing,
    frame [Byte.x2a] (serialize_table []) [] =
      take 16 (frame [Byte.x2a] (serialize_table []) [])
      ++ [Byte.x2a] ++ meta ++ concat ([] : Heap) ++ trailing ∧
    16 ≤ length (frame [Byte.x2a] (serialize_table []) []) ∧
    decodeInt64 (take 8 (frame [Byte.x2a] (serialize_table []) [])) =
      N.of_nat (length [Byte.x2a]) ∧
    decodeInt64 (take 8 (drop 8 (frame [Byte.x2a] (serialize_table []) []))) =
      N.of_nat (length meta) ∧
    parse_table meta = Some table ∧
    [] = imap tensor_of_meta table ∧
    Forall2 (λ e (s : list byte), meta_nbytes e = N.of_nat (length s))
            table [].
Proof.
  destruct (wireDeserialize_rejects_malformed 4 example_payload
              [small_view; full_tensor] example_heap 40)
    as (Hcut & Hshort & Hheader & Hmeta & Hstorage & Hslices).
  - repeat constructor.
  - repeat first [split | constructor]; reflexivity.
  - vm_compute. lia.
  - split; [exact Hcut|]. split; [apply Hshort; simpl; lia|].
    split; [apply Hheader; vm_compute; reflexivity|].
    split; [apply Hmeta; vm_compute; reflexivity|].
    split.
    + eapply Hstorage; vm_compute; reflexivity.
    + apply Hslices. vm_compute. reflexivity.
Defined.

(** Witness of C5 on the same two tensors. *)
Lemma cloneSparseTensors_policy_witness :
  let tensors := [small_view; full_tensor] in
  let h := example_heap in
  let out := (cloneSparseTensors 4 tensors h).1 in
  let h' := (cloneSparseTensors 4 tensors h).2 in
  length out = length tensors ∧
  (∃ fresh, h' = h ++ fresh) ∧
  (∀ i t, tensors !! i = Some t →
     ∃ t', out !! i = Some t' ∧
       if decide (2 * nbytes t ≤ N.of_nat (length (storage_bytes h t)) ∧
                  4 < N.of_nat (length (storage_bytes h t)) - nbytes t)%N
       then sizes t' = sizes t ∧ dtype t' = dtype t ∧ device t' = device t ∧
            storage_offset t' = 0%N ∧
            length h ≤ storage t' ∧
            h' !! storage t' = Some (contents h t) ∧
            contents h' t' = contents h t
       else t' = t ∧ storage_bytes h' t' = storage_bytes h t) ∧
  (∀ i j ti tj, i ≠ j → out !! i = Some ti → out !! j = Some tj →
                length h ≤ storage ti → length h ≤ storage tj →
                storage ti ≠ storage tj).
Proof.
  apply (cloneSparseTensors_policy 4 [small_view; full_tensor] example_heap).
  repeat constructor.
Defined.

(** What the policy does to the two tensors. *)
Example cloneSparseTensors_example :
  cloneSparseTensors 4 [small_view; full_tensor] example_heap =
    ([ {| sizes := [2%N; 2%N]; dtype := Byte; storage := 2;
          storage_offset := 0%N; device := host |};
       full_tensor ],
     example_heap ++ [[Byte.x03; Byte.x04; Byte.x05; Byte.x06]]).
Proof. vm_compute. reflexivity. Qed.


(** The written buffer of the witness: the length field is big-endian. *)
Example writeWrappedPayload_example :
  writeWrappedPayload [Byte.x01] [Byte.x02; Byte.x03] =
    [Byte.x01; Byte.x02; Byte.x03;
     Byte.x00; Byte.x00; Byte.x00; Byte.x00;
     Byte.x00; Byte.x00; Byte.x00; Byte.x02].
Proof. vm_compute. reflexivity. Qed.


(** Witness of C8: tag 99 has no decoder. *)
Lemma deserializeRequest_unsupported_witness :
  let request := {| payload := []; tensors := []; message_type := 99 |} in
  deserializeRequest (list IValue) script_decoders request =
    Thrown (UnsupportedMessageType 99) ∧
  (∀ rpc, deserializeRequest (list IValue) script_decoders request
            ≠ Returned rpc).
Proof.
  apply (deserializeRequest_unsupported (list IValue) script_decoders
           {| payload := []; tensors := []; message_type := 99 |}).
  reflexivity.
Defined.

(** ** LazyStreamContext: further properties *)

Lemma difference_fresh (X Y : gset Z) i :
  i ∈ X → i ∉ Y → X ∖ Y = {[i]} ∪ X ∖ ({[i]} ∪ Y).
Proof.
  intros HX HY. apply set_eq. intros x.
  destruct (decide (x = i)) as [->|]; set_solver.
Qed.

Section LazyStreamContext_more.

Variable streamCreator_ : stream_factory_t.
Variable currentStreamProvider_ : stream_factory_t.
Variable iteration_order : gmap Z Stream → list (Z * Stream).
Hypothesis iteration_order_perm :
  ∀ m : gmap Z Stream, iteration_order m ≡ₚ map_to_list m.

#[local] Abbreviation getStream := (getStream streamCreator_).
#[local] Abbreviation reserve_streams := (reserve_streams streamCreator_).
#[local] Abbreviation sync_entry := (sync_entry currentStreamProvider_).
#[local] Abbreviation waitForCurrentStreams :=
  (waitForCurrentStreams streamCreator_ currentStreamProvider_
     iteration_order).
#[local] Abbreviation run :=
  (run streamCreator_ currentStreamProvider_ iteration_order).

Lemma waitForCurrentStreams_unfold tensors m :
  waitForCurrentStreams tensors m =
    match reserve_streams tensors m with
    | (Returned _, m1) =>
        for_each (iteration_order (streams_ m1)) sync_entry m1
    | (Thrown e, m1) => (Thrown e, m1)
    end.
Proof.
  unfold waitForCurrentStreams, bind at 1.
  by destruct (reserve_streams tensors m) as [[[]|e] m1].
Qed.

(** A property of the machine that [getStream] and the second loop keep is
    kept by every use of the context. *)
Lemma run_invariant (I : Machine → Prop) :
  (∀ dt idx m, I m → I (getStream dt idx m).2) →
  (∀ m, I m →
        I (for_each (iteration_order (streams_ m)) sync_entry m).2) →
  ∀ ops m, I m → I (run ops m).
Proof.
  intros Hget Hsync.
  assert (∀ ts m, I m → I (reserve_streams ts m).2) as Hres.
  { induction ts as [|t rest IH]; intros m Hm; [done|].
    rewrite reserve_streams_cons.
    pose proof (Hget (type (device t)) (index (device t)) m Hm) as Hm'.
    destruct (getStream (type (device t)) (index (device t)) m)
      as [[r|e] m']; simpl in *; [by apply IH|done]. }
  induction ops as [|o ops IH]; intros m Hm; [done|].
  simpl. apply IH. destruct o as [dt idx|ts| |]; simpl.
  - by apply Hget.
  - rewrite waitForCurrentStreams_unfold.
    pose proof (Hres ts m Hm) as Hm1.
    destruct (reserve_streams ts m) as [[[]|e] m1]; simpl in *;
      [by apply Hsync|done].
  - done.
  - done.
Qed.

Lemma Paired_app a tr1 b tr2 c :
  Paired a tr1 b → Paired b tr2 c → Paired a (tr1 ++ tr2) c.
Proof.
  intros H1 H2. induction H1; simpl; [done| |].
  - apply Paired_other; [done|]. by apply IHPaired.
  - apply Paired_event. by apply IHPaired.
Qed.

(** The second loop in detail: it returns and leaves [streams_] alone; it
    asks the provider once per entry, in the order of the entries, with the
    device type of the reserved stream; it never asks the creator; the
    events it constructs are as many as the provider named streams, and
    each is recorded and then blocked on by an entry's stream. *)
Lemma sync_loop_calls es : ∀ m,
  ∃ tr k,
    for_each es sync_entry m =
      (Returned tt,
       {| streams_ := streams_ m; calls := calls m ++ tr;
          events := events m + k |}) ∧
    Paired (events m) tr (events m + k) ∧
    omap asked tr = (λ entry, (device_type entry.2, entry.1)) <$> es ∧
    k = length (filter (λ c, answered c = true) tr) ∧
    omap created_index tr = [] ∧
    Forall (λ c, is_CreatorCall c = false) tr ∧
    Forall (λ c, ∀ e s, c = EventBlock e s → s ∈ es.*2) tr.
Proof.
  induction es as [|[idx s] rest IH]; intros m.
  - exists [], 0. simpl. unfold ret. rewrite app_nil_r, Nat.add_0_r.
    repeat split; try done; [by destruct m|constructor].
  - simpl. unfold bind at 1, sync_entry at 1, bind at 1.
    unfold call_currentStreamProvider, bind, log, ret. simpl.
    destruct (currentStreamProvider_ (calls m) (device_type s) idx)
      as [cur|] eqn:Hp.
    + unfold new_Event. simpl.
      set (m1 := {| streams_ := streams_ m; calls := _; events := _ |}).
      destruct (IH m1) as (tr & k & -> & Hpair & Hask & Hk & Hcr & Hnc & Hbl).
      subst m1. simpl in *.
      eexists (_ :: _ :: _ :: tr), (S k). repeat split.
      * f_equal. f_equal; [|lia]. by rewrite <- !app_assoc.
      * apply Paired_other; [done|]. apply Paired_event.
        replace (events m + S k) with (S (events m + k)) by lia. done.
      * simpl. f_equal. exact Hask.
      * rewrite filter_cons_True by done.
        rewrite filter_cons_False by done. rewrite filter_cons_False by done.
        simpl. by rewrite <- Hk.
      * done.
      * repeat (constructor; [done|]). done.
      * constructor; [done|]. constructor; [done|]. constructor.
        { intros e s' [= _ <-]. simpl. apply elem_of_cons. by left. }
        eapply Forall_impl; [exact Hbl|]. intros c Hc e s' Heq.
        simpl. apply elem_of_cons. right. by eapply Hc.
    + set (m1 := {| streams_ := streams_ m; calls := _; events := _ |}).
      destruct (IH m1) as (tr & k & -> & Hpair & Hask & Hk & Hcr & Hnc & Hbl).
      subst m1. simpl in *.
      eexists (_ :: tr), k. repeat split.
      * f_equal. f_equal. by rewrite <- !app_assoc.
      * by apply Paired_other.
      * simpl. f_equal. exact Hask.
      * by rewrite filter_cons_False.
      * done.
      * by constructor.
      * constructor; [done|].
        eapply Forall_impl; [exact Hbl|]. intros c Hc e s' Heq.
        simpl. apply elem_of_cons. right. by eapply Hc.
Qed.

Lemma tensor_indices_cons t ts :
  tensor_indices (t :: ts) = {[index (device t)]} ∪ tensor_indices ts.
Proof. done. Qed.

(** The first loop, when it returns. *)
Lemma reserve_streams_returned ts : ∀ m m1,
  reserve_streams ts m = (Returned tt, m1) →
  dom (streams_ m1) = dom (streams_ m) ∪ tensor_indices ts ∧
  events m1 = events m ∧
  ∃ tr, calls m1 = calls m ++ tr ∧
        Forall (λ c, ∃ dt idx s, c = CreatorCall dt idx (Some s)) tr ∧
        length tr = size (dom (streams_ m1) ∖ dom (streams_ m)).
Proof.
  induction ts as [|t rest IH]; intros m m1 Hr.
  - injection Hr as <-. split; [|split; [done|]].
    + unfold tensor_indices. simpl. set_solver +.
    + exists []. rewrite app_nil_r. split; [done|]. split; [constructor|].
      replace (dom (streams_ m) ∖ dom (streams_ m)) with (∅ : gset Z)
        by set_solver +.
      done.
  - rewrite reserve_streams_cons in Hr. rewrite tensor_indices_cons.
    destruct (getStream_cases streamCreator_ (type (device t))
                (index (device t)) m)
      as [(s & Hm & Hg) | [(s & Hm & Hc & Hg) | (_ & _ & Hg)]];
      rewrite Hg in Hr; [| |done].
    + destruct (IH m m1 Hr) as (Hdom & Hev & tr & Htr & Hall & Hlen).
      split; [|split; [done|by exists tr]].
      assert (index (device t) ∈ dom (streams_ m)) as Hin
        by (apply elem_of_dom; eauto).
      set_solver + Hdom Hin.
    + destruct (IH _ m1 Hr) as (Hdom & Hev & tr & Htr & Hall & Hlen).
      simpl in *. rewrite dom_insert_L in Hdom, Hlen.
      assert (index (device t) ∉ dom (streams_ m)) as Hnin
        by (by apply not_elem_of_dom).
      split; [set_solver + Hdom|]. split; [done|].
      exists (CreatorCall (type (device t)) (index (device t)) (Some s) :: tr).
      split; [by rewrite Htr, <- app_assoc|]. split.
      * constructor; [by eauto|done].
      * rewrite (difference_fresh (dom (streams_ m1)) (dom (streams_ m))
                   (index (device t))) by (done || set_solver + Hdom).
        rewrite size_union by (clear; set_solver).
        rewrite size_singleton. simpl. by rewrite Hlen.
Qed.

(** The first loop, when it throws: it does at the first tensor whose
    device has no stream yet and for which the creator has none. *)
Lemma reserve_streams_thrown ts : ∀ m e m1,
  reserve_streams ts m = (Thrown e, m1) →
  e = runtime_error "Only CUDA streams are supported" ∧
  events m1 = events m ∧
  ∃ i t tr,
    ts !! i = Some t ∧
    calls m1 =
      calls m ++ tr
      ++ [CreatorCall (type (device t)) (index (device t)) None] ∧
    Forall (λ c, ∃ dt idx s, c = CreatorCall dt idx (Some s)) tr ∧
    dom (streams_ m1) = dom (streams_ m) ∪ tensor_indices (take i ts) ∧
    index (device t) ∉ dom (streams_ m1).
Proof.
  induction ts as [|t rest IH]; intros m e m1 Hr; [done|].
  rewrite reserve_streams_cons in Hr.
  destruct (getStream_cases streamCreator_ (type (device t))
              (index (device t)) m)
    as [(s & Hm & Hg) | [(s & Hm & Hc & Hg) | (Hm & Hc & Hg)]];
    rewrite Hg in Hr.
  - destruct (IH m e m1 Hr)
      as (He & Hev & i & t' & tr & Hi & Htr & Hall & Hdom & Hnot).
    split; [done|]. split; [done|].
    exists (S i), t', tr. repeat split; try done.
    simpl. rewrite tensor_indices_cons.
    assert (index (device t) ∈ dom (streams_ m)) as Hin
      by (apply elem_of_dom; eauto).
    set_solver + Hdom Hin.
  - destruct (IH _ e m1 Hr)
      as (He & Hev & i & t' & tr & Hi & Htr & Hall & Hdom & Hnot).
    simpl in *. rewrite dom_insert_L in Hdom.
    split; [done|]. split; [done|].
    exists (S i), t',
      (CreatorCall (type (device t)) (index (device t)) (Some s) :: tr).
    repeat split; try done.
    + by rewrite Htr, <- !app_assoc.
    + constructor; [by eauto|done].
    + simpl. rewrite tensor_indices_cons. set_solver + Hdom.
  - injection Hr as <- <-. split; [done|]. split; [done|].
    exists 0, t, []. simpl. repeat split; try done.
    + unfold tensor_indices. simpl. set_solver +.
    + by apply not_elem_of_dom.
Qed.

(** X1: [getReservedStreams] and [devices] only read the context, and
    they agree with each other and with [getStream]: there are as many
    reserved streams as devices, a stream is listed exactly when some
    device index is, for which [getStream] returns that stream without
    changing anything, and an index is listed exactly when [getStream]
    returns a listed stream for it without changing anything. *)
Theorem getReservedStreams_devices_agree m :
  ∃ streams ds,
    getReservedStreams iteration_order m = (Returned streams, m) ∧
    devices m = (Returned ds, m) ∧
    length streams = size ds ∧
    (∀ s, s ∈ streams ↔
          ∃ idx, idx ∈ ds ∧
                 ∀ dt, getStream dt idx m = (Returned (Some s), m)) ∧
    (∀ idx, idx ∈ ds ↔
            ∃ s, s ∈ streams ∧
                 ∀ dt, getStream dt idx m = (Returned (Some s), m)).
Proof.
  exists (iteration_order (streams_ m)).*2, (dom (streams_ m)).
  assert (∀ idx s, (∀ dt, getStream dt idx m = (Returned (Some s), m)) ↔
                   streams_ m !! idx = Some s) as Hhit.
  { intros idx s. split.
    - intros Hg. specialize (Hg CPU).
      destruct (getStream_returns_cached streamCreator_ CPU idx m (Some s))
        as (s' & [= <-] & Hs); [by rewrite Hg|].
      by rewrite Hg in Hs.
    - intros Hs dt. by apply getStream_hit. }
  assert (∀ s, s ∈ (iteration_order (streams_ m)).*2 ↔
               ∃ idx, streams_ m !! idx = Some s) as Hlisted.
  { intros s. rewrite list_elem_of_fmap. split.
    - intros ([idx s'] & -> & Hin). exists idx.
      by apply (iteration_order_lookup iteration_order iteration_order_perm).
    - intros (idx & Hs). exists (idx, s). split; [done|].
      by apply (iteration_order_lookup iteration_order iteration_order_perm). }
  split; [done|]. split; [done|]. split; [|split].
  - rewrite length_fmap, iteration_order_perm, length_map_to_list.
    by rewrite size_dom.
  - intros s. rewrite Hlisted. split.
    + intros (idx & Hs). exists idx. split; [|by apply Hhit].
      apply elem_of_dom. eauto.
    + intros (idx & _ & Hg). exists idx. by apply Hhit.
  - intros idx. rewrite elem_of_dom. split.
    + intros [s Hs]. exists s. split; [|by apply Hhit].
      apply Hlisted. eauto.
    + intros (s & _ & Hg). exists s. by apply Hhit.
Qed.

(** X2: a call of [getStream] that throws caches nothing: [streams_] is as
    before, the index is still in no device set, the creator was asked
    once and no event was made; and the next call for the index asks the
    creator again, and returns and caches what it then gets. *)
Theorem getStream_failure_caches_nothing dt idx m e :
  (getStream dt idx m).1 = Thrown e →
  let m' := (getStream dt idx m).2 in
  e = runtime_error "Only CUDA streams are supported" ∧
  streams_ m' = streams_ m ∧
  (idx ∉ dom (streams_ m')) ∧
  events m' = events m ∧
  calls m' = calls m ++ [CreatorCall dt idx None] ∧
  ∀ dt',
    getStream dt' idx m' =
      match streamCreator_ (calls m') dt' idx with
      | Some s =>
          (Returned (Some s),
           {| streams_ := <[idx := s]> (streams_ m);
              calls := calls m' ++ [CreatorCall dt' idx (Some s)];
              events := events m |})
      | None =>
          (Thrown e,
           {| streams_ := streams_ m;
              calls := calls m' ++ [CreatorCall dt' idx None];
              events := events m |})
      end.
Proof.
  intros He m'. subst m'.
  destruct (getStream_cases streamCreator_ dt idx m)
    as [(s & _ & Hg) | [(s & _ & _ & Hg) | (Hm & Hc & Hg)]];
    rewrite Hg in He |- *; simpl in *; try done.
  injection He as <-.
  repeat split; try done; [by apply not_elem_of_dom|].
  intros dt'.
  set (m' := {| streams_ := streams_ m; calls := _; events := events m |}).
  destruct (streamCreator_ (calls m') dt' idx) as [s|] eqn:Hc'.
  - rewrite (getStream_created streamCreator_ dt' idx s m' Hm Hc').
    subst m'. simpl in *. by rewrite Hc'.
  - rewrite (getStream_refused streamCreator_ dt' idx m' Hm Hc').
    subst m'. simpl in *. by rewrite Hc'.
Qed.

(** X3: when the first loop of [waitForCurrentStreams] throws, the call
    throws the same [runtime_error] and leaves the machine as the loop left
    it: the provider was not asked and no event was made (the added calls
    are creator calls only); the loop stopped at the first tensor whose
    device had no stream and for which the creator had none; the device
    set is the old one plus the devices of the tensors before that one,
    whose streams stay reserved, and every stream reserved before the call
    is still there. *)
Theorem waitForCurrentStreams_first_loop_throws ts m e m1 :
  reserve_streams ts m = (Thrown e, m1) →
  waitForCurrentStreams ts m = (Thrown e, m1) ∧
  e = runtime_error "Only CUDA streams are supported" ∧
  events m1 = events m ∧
  (∀ idx s, streams_ m !! idx = Some s → streams_ m1 !! idx = Some s) ∧
  ∃ i t tr,
    ts !! i = Some t ∧
    calls m1 =
      calls m ++ tr
      ++ [CreatorCall (type (device t)) (index (device t)) None] ∧
    Forall (λ c, ∃ dt idx s, c = CreatorCall dt idx (Some s)) tr ∧
    dom (streams_ m1) = dom (streams_ m) ∪ tensor_indices (take i ts) ∧
    index (device t) ∉ dom (streams_ m1).
Proof.
  intros Hr.
  destruct (reserve_streams_thrown ts m e m1 Hr) as (He & Hev & Hrest).
  split; [by rewrite waitForCurrentStreams_unfold, Hr|].
  split; [done|]. split; [done|]. split; [|done].
  intros idx s Hs.
  pose proof (reserve_streams_grows streamCreator_ ts m) as Hg.
  rewrite Hr in Hg. by apply (grows_lookup _ _ _ _ _ Hg).
Qed.

(** The creator calls of a first loop that returns, one by one: each was
    made for the device type and index of one of the tensors and answered
    with the stream that is cached under that index afterwards; no index
    was asked for twice; and the indices asked for are those of the tensors
    that had no stream. *)
Lemma reserve_streams_returned_calls ts : ∀ m m1,
  reserve_streams ts m = (Returned tt, m1) →
  ∃ tr,
    calls m1 = calls m ++ tr ∧
    Forall (λ c, ∃ t s,
              t ∈ ts ∧
              c = CreatorCall (type (device t)) (index (device t)) (Some s) ∧
              streams_ m1 !! index (device t) = Some s) tr ∧
    NoDup (omap created_index tr) ∧
    (∀ idx, idx ∈ omap created_index tr ↔
            idx ∈ tensor_indices ts ∧ idx ∉ dom (streams_ m)).
Proof.
  induction ts as [|t rest IH]; intros m m1 Hr.
  - injection Hr as <-. exists []. rewrite app_nil_r.
    split; [done|]. split; [constructor|]. split; [constructor|].
    intros idx. simpl. split.
    + intros Hin. by apply elem_of_nil in Hin.
    + intros [Hin _]. unfold tensor_indices in Hin. simpl in Hin.
      by apply elem_of_empty in Hin.
  - rewrite reserve_streams_cons in Hr.
    assert (∀ (tr : list Call) (P : Tensor → Stream → Call → Prop),
              Forall (λ c, ∃ t' s, t' ∈ rest ∧ P t' s c) tr →
              Forall (λ c, ∃ t' s, t' ∈ t :: rest ∧ P t' s c) tr) as Hweak.
    { intros tr P Htr. eapply Forall_impl; [exact Htr|].
      intros c (t' & s & Hin & HP).
      exists t', s. split; [by apply list_elem_of_further|done]. }
    destruct (getStream_cases streamCreator_ (type (device t))
                (index (device t)) m)
      as [(s & Hm & Hg) | [(s & Hm & Hc & Hg) | (_ & _ & Hg)]];
      rewrite Hg in Hr; [| |done].
    + destruct (IH m m1 Hr) as (tr & Htr & Hall & Hnodup & Hiff).
      exists tr. split; [done|]. split.
      { apply (Hweak tr (λ t' s c,
                 c = CreatorCall (type (device t')) (index (device t'))
                       (Some s) ∧
                 streams_ m1 !! index (device t') = Some s)), Hall. }
      split; [done|].
      intros idx. rewrite Hiff, tensor_indices_cons.
      assert (index (device t) ∈ dom (streams_ m)) as Hin
        by (apply elem_of_dom; eauto).
      rewrite elem_of_union, elem_of_singleton. split.
      * intros [? ?]. split; [by right|done].
      * intros [[->|?] ?]; [done|by split].
    + destruct (IH _ m1 Hr) as (tr & Htr & Hall & Hnodup & Hiff).
      simpl in *.
      assert (index (device t) ∉ dom (streams_ m)) as Hnin
        by (by apply not_elem_of_dom).
      assert (∀ idx, idx ∈ omap created_index tr ↔
                     idx ∈ tensor_indices rest ∧
                     idx ≠ index (device t) ∧ idx ∉ dom (streams_ m))
        as Hiff'.
      { intros idx. rewrite Hiff, dom_insert_L.
        rewrite elem_of_union, elem_of_singleton. tauto. }
      exists (CreatorCall (type (device t)) (index (device t)) (Some s) :: tr).
      split; [by rewrite Htr, <- app_assoc|]. split; [|split].
      * constructor.
        -- exists t, s. split; [by apply list_elem_of_here|]. split; [done|].
           pose proof (reserve_streams_grows streamCreator_ rest
                         {| streams_ := <[index (device t):=s]> (streams_ m);
                            calls := calls m
                              ++ [CreatorCall (type (device t))
                                    (index (device t)) (Some s)];
                            events := events m |}) as Hg'.
           rewrite Hr in Hg'. simpl in Hg'.
           apply (grows_lookup _ _ _ _ _ Hg'). by rewrite lookup_insert_eq.
        -- apply (Hweak tr (λ t' s c,
                    c = CreatorCall (type (device t')) (index (device t'))
                          (Some s) ∧
                    streams_ m1 !! index (device t') = Some s)), Hall.
      * simpl. constructor; [|done].
        intros Hin. apply Hiff' in Hin. tauto.
      * intros idx. simpl. rewrite elem_of_cons, Hiff', tensor_indices_cons.
        rewrite elem_of_union, elem_of_singleton.
        destruct (decide (idx = index (device t))) as [->|Hne]; tauto.
Qed.

(** X4: when the first loop returns, the devices of the context after
    [waitForCurrentStreams] are the devices it had plus the device indices
    of the tensors.  The creator calls of the first loop were each made for
    the device type and index of one of the tensors and answered with the
    stream cached under that index afterwards; the indices asked for are
    exactly those of the tensors that had no stream, each asked for once,
    however many tensors share it; and the second loop did not ask the
    creator at all. *)
Theorem waitForCurrentStreams_reserves_tensor_devices ts m m1 :
  reserve_streams ts m = (Returned tt, m1) →
  let after := (waitForCurrentStreams ts m).2 in
  streams_ after = streams_ m1 ∧
  (devices after).1 = Returned (dom (streams_ m) ∪ tensor_indices ts) ∧
  ∃ tr tr',
    calls after = calls m ++ tr ++ tr' ∧
    Forall (λ c, ∃ t s,
              t ∈ ts ∧
              c = CreatorCall (type (device t)) (index (device t)) (Some s) ∧
              streams_ after !! index (device t) = Some s) tr ∧
    NoDup (omap created_index tr) ∧
    (∀ idx, idx ∈ omap created_index tr ↔
            idx ∈ tensor_indices ts ∧ idx ∉ dom (streams_ m)) ∧
    length tr = size (tensor_indices ts ∖ dom (streams_ m)) ∧
    Forall (λ c, is_CreatorCall c = false) tr'.
Proof.
  intros Hr after.
  destruct (reserve_streams_returned ts m m1 Hr)
    as (Hdom & Hev & tr & Htr & _ & Hlen).
  destruct (reserve_streams_returned_calls ts m m1 Hr)
    as (tr0 & Htr0 & Hall & Hnodup & Hiff).
  assert (tr0 = tr) as ->.
  { rewrite Htr in Htr0. by apply app_inv_head in Htr0. }
  destruct (sync_loop_calls (iteration_order (streams_ m1)) m1)
    as (tr' & k & Hloop & _ & _ & _ & _ & Hnc & _).
  assert (after = {| streams_ := streams_ m1; calls := calls m1 ++ tr';
                     events := events m1 + k |}) as ->.
  { subst after. by rewrite waitForCurrentStreams_unfold, Hr, Hloop. }
  simpl. split; [done|]. split; [by rewrite Hdom|].
  exists tr, tr'. split; [by rewrite Htr, <- app_assoc|].
  split; [done|]. split; [done|]. split; [done|]. split; [|done].
  rewrite Hlen, Hdom. f_equal. clear. set_solver.
Qed.

(** X5: tensors whose devices all have a stream already (no tensors in
    particular) change nothing in the first loop: the call behaves exactly
    like [waitForCurrentStreams] on the empty list, reserves nothing and
    never asks the creator. *)
Theorem waitForCurrentStreams_reserved_devices ts m :
  (∀ t, t ∈ ts → index (device t) ∈ dom (streams_ m)) →
  reserve_streams ts m = (Returned tt, m) ∧
  waitForCurrentStreams ts m = waitForCurrentStreams [] m ∧
  streams_ (waitForCurrentStreams ts m).2 = streams_ m ∧
  ∃ tr, calls (waitForCurrentStreams ts m).2 = calls m ++ tr ∧
        Forall (λ c, is_CreatorCall c = false) tr.
Proof.
  intros Hin.
  assert (reserve_streams ts m = (Returned tt, m)) as Hr.
  { induction ts as [|t rest IH]; [done|].
    rewrite reserve_streams_cons.
    destruct (proj1 (elem_of_dom _ _) (Hin t (list_elem_of_here _ _)))
      as [s Hs].
    rewrite (getStream_hit streamCreator_ _ _ s m Hs).
    apply IH. intros t' Ht'. apply Hin. by apply list_elem_of_further. }
  split; [done|].
  destruct (sync_loop_calls (iteration_order (streams_ m)) m)
    as (tr & k & Hloop & _ & _ & _ & _ & Hnc & _).
  rewrite !waitForCurrentStreams_unfold, Hr. simpl.
  split; [done|]. rewrite Hloop. simpl. split; [done|]. by exists tr.
Qed.

Lemma creator_call_app dt idx s (tr1 tr2 : list Call) :
  Forall (λ c, is_CreatorCall c = false) tr2 →
  CreatorCall dt idx (Some s) ∈ tr1 ++ tr2 ↔
  CreatorCall dt idx (Some s) ∈ tr1.
Proof.
  intros Hnc. rewrite elem_of_app. split; [|by left].
  intros [Hin|Hin]; [done|].
  by pose proof (proj1 (Forall_forall _ _) Hnc _ Hin).
Qed.

Lemma created_index_Some c idx :
  created_index c = Some idx ↔ ∃ dt s, c = CreatorCall dt idx (Some s).
Proof.
  split.
  - destruct c as [dt i [s|]| | |]; try done. intros [= ->]. eauto.
  - by intros (dt & s & ->).
Qed.

(** X6: over the whole life of a context, from its construction through any
    sequence of calls, [streams_] holds exactly the streams the creator
    handed out, each under the index it was asked for; the creator was
    answered with a stream at most once per index; and [devices] is the set
    of those indices. *)
Theorem cache_matches_creator_calls ops :
  let m := run ops fresh_context in
  (∀ idx s, streams_ m !! idx = Some s ↔
            ∃ dt, CreatorCall dt idx (Some s) ∈ calls m) ∧
  NoDup (omap created_index (calls m)) ∧
  (devices m).1 = Returned (list_to_set (omap created_index (calls m))).
Proof.
  intros m.
  set (I := λ m : Machine,
         (∀ idx s, streams_ m !! idx = Some s ↔
                   ∃ dt, CreatorCall dt idx (Some s) ∈ calls m) ∧
         NoDup (omap created_index (calls m))).
  assert (I m) as [Hcache Hnodup].
  { apply run_invariant; clear m.
    - intros dt idx m [Hcache Hnodup].
      destruct (getStream_cases streamCreator_ dt idx m)
        as [(s & _ & ->) | [(s & Hm & _ & ->) | (Hm & _ & ->)]];
        [done| |]; split; simpl.
      + intros idx' s'. destruct (decide (idx = idx')) as [<-|Hne].
        * rewrite lookup_insert_eq. split.
          -- intros [= <-]. exists dt. apply elem_of_app. right.
             by apply list_elem_of_singleton.
          -- intros (dt' & Hin). apply elem_of_app in Hin as [Hin|Hin].
             ++ assert (streams_ m !! idx = Some s') as Hs'
                  by (apply Hcache; eauto).
                congruence.
             ++ apply list_elem_of_singleton in Hin. congruence.
        * rewrite lookup_insert_ne by done. rewrite Hcache.
          split; intros (dt' & Hin); exists dt'.
          -- apply elem_of_app. by left.
          -- apply elem_of_app in Hin as [Hin|Hin]; [done|].
             apply list_elem_of_singleton in Hin. congruence.
      + rewrite omap_app. simpl. apply NoDup_app. split; [done|].
        split; [|apply NoDup_singleton].
        intros x Hx Hx'. apply list_elem_of_singleton in Hx' as ->.
        apply list_elem_of_omap in Hx as (c & Hin & Hc).
        apply created_index_Some in Hc as (dt' & s' & ->).
        assert (streams_ m !! idx = Some s') as Hs'
          by (apply Hcache; eauto).
        congruence.
      + intros idx' s'. rewrite Hcache.
        split; intros (dt' & Hin); exists dt'.
        * apply elem_of_app. by left.
        * apply elem_of_app in Hin as [Hin|Hin]; [done|].
          apply list_elem_of_singleton in Hin. congruence.
      + rewrite omap_app. simpl. by rewrite app_nil_r.
    - intros m [Hcache Hnodup].
      destruct (sync_loop_calls (iteration_order (streams_ m)) m)
        as (tr & k & -> & _ & _ & _ & Hcr & Hnc & _).
      split; simpl.
      + intros idx s. rewrite Hcache.
        split; intros (dt & Hin); exists dt; by apply (creator_call_app _ _ _ _ tr).
      + rewrite omap_app, Hcr. by rewrite app_nil_r.
    - split; [|constructor]. intros idx s. simpl. rewrite lookup_empty.
      split; [done|]. intros (dt & Hin). by apply elem_of_nil in Hin. }
  split; [done|]. split; [done|].
  simpl. f_equal. apply set_eq. intros idx.
  rewrite elem_of_dom, elem_of_list_to_set, list_elem_of_omap. split.
  - intros [s Hs]. apply Hcache in Hs as (dt & Hin).
    exists (CreatorCall dt idx (Some s)). by split.
  - intros (c & Hin & Hc).
    apply created_index_Some in Hc as (dt & s & ->).
    exists s. apply Hcache. eauto.
Qed.

(** X7: over the whole life of a context the calls on events come in pairs,
    a [record] immediately followed by a [block] on the same event, whose
    device type is that of the blocked stream; the events are all different
    (numbered in order of construction, none is used twice, not even by
    different calls of [waitForCurrentStreams]); and only streams reserved
    in the context are ever blocked. *)
Theorem events_recorded_then_blocked ops :
  let m := run ops fresh_context in
  Paired 0 (calls m) (events m) ∧
  (∀ e s, EventBlock e s ∈ calls m → ∃ idx, streams_ m !! idx = Some s).
Proof.
  intros m.
  apply (run_invariant
           (λ m, Paired 0 (calls m) (events m) ∧
                 ∀ e s, EventBlock e s ∈ calls m →
                        ∃ idx, streams_ m !! idx = Some s)); clear m.
  - intros dt idx m [Hp Hb].
    pose proof (getStream_grows streamCreator_ dt idx m) as Hg.
    assert (∃ c, is_EventCall c = false ∧
                 (calls (getStream dt idx m).2 = calls m ∨
                  calls (getStream dt idx m).2 = calls m ++ [c]) ∧
                 events (getStream dt idx m).2 = events m)
      as (c & Hc & Hcalls & Hev).
    { destruct (getStream_cases streamCreator_ dt idx m)
        as [(s & _ & ->) | [(s & _ & _ & ->) | (_ & _ & ->)]]; simpl.
      - exists (CreatorCall dt idx None). auto.
      - exists (CreatorCall dt idx (Some s)). auto.
      - exists (CreatorCall dt idx None). auto. }
    rewrite Hev. split.
    + destruct Hcalls as [->| ->]; [done|].
      eapply Paired_app; [exact Hp|]. apply Paired_other; [done|constructor].
    + intros e s Hin.
      assert (EventBlock e s ∈ calls m) as Hin'.
      { destruct Hcalls as [Heq|Heq]; rewrite Heq in Hin; [done|].
        apply elem_of_app in Hin as [Hin|Hin]; [done|].
        apply list_elem_of_singleton in Hin. subst c. done. }
      destruct (Hb e s Hin') as [idx' Hs]. exists idx'.
      by apply (grows_lookup _ _ _ _ _ Hg).
  - intros m [Hp Hb].
    destruct (sync_loop_calls (iteration_order (streams_ m)) m)
      as (tr & k & -> & Hpair & _ & _ & _ & _ & Hbl).
    simpl. split; [by eapply Paired_app|].
    intros e s Hin. apply elem_of_app in Hin as [Hin|Hin]; [by eauto|].
    pose proof (proj1 (Forall_forall _ _) Hbl _ Hin e s eq_refl) as Hs.
    apply list_elem_of_fmap in Hs as ([idx s'] & -> & Hs).
    exists idx.
    by apply (iteration_order_lookup iteration_order iteration_order_perm).
  - split; [constructor|]. intros e s Hin. by apply elem_of_nil in Hin.
Qed.

(** X8: when the first loop returns, the second loop asks the provider
    exactly once for each reserved device, with the device type of the
    reserved stream and the index it is cached under, and constructs as
    many events as the provider named ambient streams. *)
Theorem waitForCurrentStreams_asks_provider_once ts m m1 :
  reserve_streams ts m = (Returned tt, m1) →
  let after := (waitForCurrentStreams ts m).2 in
  ∃ tr,
    calls after = calls m1 ++ tr ∧
    omap asked tr ≡ₚ
      (λ entry, (device_type entry.2, entry.1))
        <$> map_to_list (streams_ m1) ∧
    length (omap asked tr) = size (dom (streams_ m1)) ∧
    NoDup (omap asked tr).*2 ∧
    events after = events m1 + length (filter (λ c, answered c = true) tr).
Proof.
  intros Hr after.
  destruct (sync_loop_calls (iteration_order (streams_ m1)) m1)
    as (tr & k & Hloop & _ & Hask & Hk & _).
  assert (after = {| streams_ := streams_ m1; calls := calls m1 ++ tr;
                     events := events m1 + k |}) as ->.
  { subst after. by rewrite waitForCurrentStreams_unfold, Hr, Hloop. }
  exists tr. simpl. split; [done|]. rewrite Hask.
  split; [by rewrite iteration_order_perm|]. split; [|split].
  - rewrite length_fmap, iteration_order_perm, length_map_to_list.
    by rewrite size_dom.
  - assert (∀ es : list (Z * Stream),
              ((λ entry, (device_type entry.2, entry.1)) <$> es).*2 = es.*1)
      as ->.
    { induction es as [|entry es IH]; simpl; [done|]. by f_equal. }
    rewrite iteration_order_perm. apply NoDup_fst_map_to_list.
  - by rewrite Hk.
Qed.

(** X9: a stream that [getStream] returned stays reserved: after any
    further use of the context [getReservedStreams] lists the stream and
    [devices] lists its index, along with every index that was there
    before; no call drops a device. *)
Theorem reserved_stream_stays_listed dt idx m s ops :
  (getStream dt idx m).1 = Returned (Some s) →
  let later := run ops (getStream dt idx m).2 in
  ∃ streams ds,
    getReservedStreams iteration_order later = (Returned streams, later) ∧
    devices later = (Returned ds, later) ∧
    s ∈ streams ∧ idx ∈ ds ∧ dom (streams_ m) ⊆ ds.
Proof.
  intros Hr later.
  destruct (getStream_returns_cached streamCreator_ dt idx m _ Hr)
    as (s' & [= <-] & Hs).
  pose proof (run_grows streamCreator_ currentStreamProvider_
                iteration_order ops (getStream dt idx m).2) as Hrun.
  pose proof (getStream_grows streamCreator_ dt idx m) as Hget.
  assert (streams_ later !! idx = Some s) as Hlater
    by apply (grows_lookup _ _ _ _ _ Hrun Hs).
  exists (iteration_order (streams_ later)).*2, (dom (streams_ later)).
  split; [done|]. split; [done|]. split; [|split].
  - apply list_elem_of_fmap. exists (idx, s). split; [done|].
    by apply (iteration_order_lookup iteration_order iteration_order_perm).
  - apply elem_of_dom. eauto.
  - intros k Hk. apply elem_of_dom in Hk as [s0 Hs0]. apply elem_of_dom.
    exists s0. apply (grows_lookup _ _ _ _ _ Hrun).
    by apply (grows_lookup _ _ _ _ _ Hget).
Qed.

End LazyStreamContext_more.

Lemma filter_no_creator_call (tr : list Call) :
  Forall (λ c, is_CreatorCall c = false) tr →
  filter (λ c, is_CreatorCall c = true) tr = [].
Proof.
  induction 1 as [|c tr Hc _ IH]; [done|].
  rewrite filter_cons_False by congruence. done.
Qed.

(** X10: which streams are reserved after [waitForCurrentStreams], and
    which creator calls were made, is settled by the first loop alone: it
    depends neither on the current-stream provider nor on the order in
    which the second loop visits the [unordered_map]. *)
Theorem reservation_ignores_provider_and_order
    (streamCreator_ provider provider' : stream_factory_t)
    (order order' : gmap Z Stream → list (Z * Stream)) ts m :
  streams_ (waitForCurrentStreams streamCreator_ provider order ts m).2 =
    streams_ (reserve_streams streamCreator_ ts m).2 ∧
  streams_ (waitForCurrentStreams streamCreator_ provider order ts m).2 =
    streams_ (waitForCurrentStreams streamCreator_ provider' order' ts m).2 ∧
  filter (λ c, is_CreatorCall c = true)
    (calls (waitForCurrentStreams streamCreator_ provider order ts m).2) =
  filter (λ c, is_CreatorCall c = true)
    (calls (waitForCurrentStreams streamCreator_ provider' order' ts m).2).
Proof.
  rewrite !waitForCurrentStreams_unfold.
  destruct (reserve_streams streamCreator_ ts m) as [[[]|e] m1]; [|done].
  destruct (sync_loop_calls provider (order (streams_ m1)) m1)
    as (tr & k & -> & _ & _ & _ & _ & Hnc & _).
  destruct (sync_loop_calls provider' (order' (streams_ m1)) m1)
    as (tr' & k' & -> & _ & _ & _ & _ & Hnc' & _).
  simpl. split; [done|]. split; [done|].
  rewrite !filter_app.
  by rewrite (filter_no_creator_call tr), (filter_no_creator_call tr').
Qed.

(** ** Witnesses of the further properties *)

Lemma getReservedStreams_devices_agree_witness :
  ∃ streams ds,
    getReservedStreams map_to_list context_with_device_1 =
      (Returned streams, context_with_device_1) ∧
    devices context_with_device_1 = (Returned ds, context_with_device_1) ∧
    length streams = size ds ∧
    (∀ s, s ∈ streams ↔
          ∃ idx, idx ∈ ds ∧
                 ∀ dt, getStream accelerator_creator dt idx context_with_device_1
                       = (Returned (Some s), context_with_device_1)) ∧
    (∀ idx, idx ∈ ds ↔
            ∃ s, s ∈ streams ∧
                 ∀ dt, getStream accelerator_creator dt idx context_with_device_1
                       = (Returned (Some s), context_with_device_1)).
Proof.
  apply (getReservedStreams_devices_agree accelerator_creator map_to_list
           (λ _, reflexivity _)).
Defined.

(** The creator has no stream the first time and one the second time. *)
Lemma getStream_failure_caches_nothing_witness :
  let e := runtime_error "Only CUDA streams are supported" in
  let m' := (getStream flaky_creator CUDA 0%Z fresh_context).2 in
  e = runtime_error "Only CUDA streams are supported" ∧
  streams_ m' = streams_ fresh_context ∧
  (0%Z ∉ dom (streams_ m')) ∧
  events m' = events fresh_context ∧
  calls m' = calls fresh_context ++ [CreatorCall CUDA 0%Z None] ∧
  ∀ dt',
    getStream flaky_creator dt' 0%Z m' =
      match flaky_creator (calls m') dt' 0%Z with
      | Some s =>
          (Returned (Some s),
           {| streams_ := <[0%Z := s]> (streams_ fresh_context);
              calls := calls m' ++ [CreatorCall dt' 0%Z (Some s)];
              events := events fresh_context |})
      | None =>
          (Thrown e,
           {| streams_ := streams_ fresh_context;
              calls := calls m' ++ [CreatorCall dt' 0%Z None];
              events := events fresh_context |})
      end.
Proof.
  apply (getStream_failure_caches_nothing flaky_creator CUDA 0%Z
           fresh_context).
  reflexivity.
Defined.

(** The second of three tensors is on the host, for which the creator has
    no stream. *)
Lemma waitForCurrentStreams_first_loop_throws_witness :
  let ts := [tensor_on (cuda 0); tensor_on host; tensor_on (cuda 2)] in
  let m := context_with_device_1 in
  let e := runtime_error "Only CUDA streams are supported" in
  let m1 := (reserve_streams accelerator_creator ts m).2 in
  waitForCurrentStreams accelerator_creator default_stream_provider
    map_to_list ts m = (Thrown e, m1) ∧
  e = runtime_error "Only CUDA streams are supported" ∧
  events m1 = events m ∧
  (∀ idx s, streams_ m !! idx = Some s → streams_ m1 !! idx = Some s) ∧
  ∃ i t tr,
    ts !! i = Some t ∧
    calls m1 =
      calls m ++ tr
      ++ [CreatorCall (type (device t)) (index (device t)) None] ∧
    Forall (λ c, ∃ dt idx s, c = CreatorCall dt idx (Some s)) tr ∧
    dom (streams_ m1) = dom (streams_ m) ∪ tensor_indices (take i ts) ∧
    index (device t) ∉ dom (streams_ m1).
Proof.
  apply (waitForCurrentStreams_first_loop_throws accelerator_creator
           default_stream_provider map_to_list
           [tensor_on (cuda 0); tensor_on host; tensor_on (cuda 2)]
           context_with_device_1).
  vm_compute. reflexivity.
Defined.

(** Two tensors on device 0, which is new, and one on device 1, which has a
    stream: the creator is asked once. *)
Lemma waitForCurrentStreams_reserves_tensor_devices_witness :
  let ts := [tensor_on (cuda 0); tensor_on (cuda 0); tensor_on (cuda 1)] in
  let m := context_with_device_1 in
  let after :=
    (waitForCurrentStreams accelerator_creator default_stream_provider
       map_to_list ts m).2 in
  streams_ after = streams_ (reserve_streams accelerator_creator ts m).2 ∧
  (devices after).1 = Returned (dom (streams_ m) ∪ tensor_indices ts) ∧
  ∃ tr tr',
    calls after = calls m ++ tr ++ tr' ∧
    Forall (λ c, ∃ t s,
              t ∈ ts ∧
              c = CreatorCall (type (device t)) (index (device t)) (Some s) ∧
              streams_ after !! index (device t) = Some s) tr ∧
    NoDup (omap created_index tr) ∧
    (∀ idx, idx ∈ omap created_index tr ↔
            idx ∈ tensor_indices ts ∧ idx ∉ dom (streams_ m)) ∧
    length tr = size (tensor_indices ts ∖ dom (streams_ m)) ∧
    Forall (λ c, is_CreatorCall c = false) tr'.
Proof.
  apply (waitForCurrentStreams_reserves_tensor_devices accelerator_creator
           default_stream_provider map_to_list
           [tensor_on (cuda 0); tensor_on (cuda 0); tensor_on (cuda 1)]
           context_with_device_1).
  vm_compute. reflexivity.
Defined.

Lemma waitForCurrentStreams_reserved_devices_witness :
  let ts := [tensor_on (cuda 1); tensor_on (cuda 1)] in
  let m := context_with_device_1 in
  reserve_streams accelerator_creator ts m = (Returned tt, m) ∧
  waitForCurrentStreams accelerator_creator default_stream_provider
    map_to_list ts m =
  waitForCurrentStreams accelerator_creator default_stream_provider
    map_to_list [] m ∧
  streams_ (waitForCurrentStreams accelerator_creator
              default_stream_provider map_to_list ts m).2 = streams_ m ∧
  ∃ tr, calls (waitForCurrentStreams accelerator_creator
                 default_stream_provider map_to_list ts m).2 =
          calls m ++ tr ∧
        Forall (λ c, is_CreatorCall c = false) tr.
Proof.
  apply (waitForCurrentStreams_reserved_devices accelerator_creator
           default_stream_provider map_to_list
           [tensor_on (cuda 1); tensor_on (cuda 1)] context_with_device_1).
  intros t Ht. apply elem_of_dom.
  apply elem_of_cons in Ht as [->|Ht];
    [|apply elem_of_cons in Ht as [->|Ht]];
    [eexists; reflexivity|eexists; reflexivity|by apply elem_of_nil in Ht].
Defined.

Lemma events_recorded_then_blocked_witness :
  let m := run accelerator_creator default_stream_provider map_to_list
             [OpWaitForCurrentStreams [tensor_on (cuda 0)];
              OpGetStream CUDA 1%Z;
              OpWaitForCurrentStreams []] fresh_context in
  Paired 0 (calls m) (events m) ∧
  (∀ e s, EventBlock e s ∈ calls m → ∃ idx, streams_ m !! idx = Some s).
Proof.
  apply (events_recorded_then_blocked accelerator_creator
           default_stream_provider map_to_list (λ _, reflexivity _)).
Defined.

Lemma waitForCurrentStreams_asks_provider_once_witness :
  let ts := [tensor_on (cuda 0)] in
  let m := context_with_device_1 in
  let m1 := (reserve_streams accelerator_creator ts m).2 in
  let after :=
    (waitForCurrentStreams accelerator_creator default_stream_provider
       map_to_list ts m).2 in
  ∃ tr,
    calls after = calls m1 ++ tr ∧
    omap asked tr ≡ₚ
      (λ entry, (device_type entry.2, entry.1))
        <$> map_to_list (streams_ m1) ∧
    length (omap asked tr) = size (dom (streams_ m1)) ∧
    NoDup (omap asked tr).*2 ∧
    events after = events m1 + length (filter (λ c, answered c = true) tr).
Proof.
  apply (waitForCurrentStreams_asks_provider_once accelerator_creator
           default_stream_provider map_to_list (λ _, reflexivity _)
           [tensor_on (cuda 0)] context_with_device_1).
  vm_compute. reflexivity.
Defined.

Lemma reserved_stream_stays_listed_witness :
  let s := {| stream_device := cuda 0; stream_id := 0%Z |} in
  let later :=
    run accelerator_creator default_stream_provider map_to_list
      [OpGetStream CPU (-1)%Z; OpWaitForCurrentStreams [tensor_on (cuda 2)]]
      (getStream accelerator_creator CUDA 0%Z context_with_device_1).2 in
  ∃ streams ds,
    getReservedStreams map_to_list later = (Returned streams, later) ∧
    devices later = (Returned ds, later) ∧
    s ∈ streams ∧ 0%Z ∈ ds ∧ dom (streams_ context_with_device_1) ⊆ ds.
Proof.
  apply (reserved_stream_stays_listed accelerator_creator
           default_stream_provider map_to_list (λ _, reflexivity _)
           CUDA 0%Z context_with_device_1).
  reflexivity.
Defined.

(** The life of the last witness, call by call: the failed call for the
    host leaves no trace in the cache, and device 2 is synchronised along
    with devices 0 and 1. *)
Example context_life :
  let later :=
    run accelerator_creator default_stream_provider map_to_list
      [OpGetStream CPU (-1)%Z; OpWaitForCurrentStreams [tensor_on (cuda 2)]]
      (getStream accelerator_creator CUDA 0%Z context_with_device_1).2 in
  (devices later).1 = Returned ({[0%Z; 1%Z; 2%Z]} : gset Z) ∧
  omap created_index (calls later) = [1%Z; 0%Z; 2%Z] ∧
  omap asked (calls later) = [(CUDA, 2%Z); (CUDA, 1%Z); (CUDA, 0%Z)] ∧
  events later = 3.
Proof. vm_compute. repeat split. Qed.
